(** * patches/ios/rct-folly/Expected.h: the coroutine include guard

    The repository's only source file is a header fragment of six lines of
    C preprocessor text.  Its meaning is what a C/C++ preprocessor does with
    it, so this development embeds

    - the text of the file, line by line ([Expected_h]);
    - the part of the preprocessor the file exercises: line lexing with
      [//] comments, directive recognition, the conditional-inclusion stack,
      [#if] expressions with [defined], macro replacement, [!], [&&], [||]
      and short-circuit evaluation, object-like [#define] / [#undef], and
      [#include] as an inclusion event;

    and proves the properties of the guard over every preprocessor state in
    which the file can be entered. *)

From Stdlib Require Import ZArith NArith List String Ascii Bool Lia.
From stdpp Require Import base option gmap strings list.
Import ListNotations.

Local Open Scope string_scope.
Local Open Scope list_scope.

(** ** The source text *)

(** [src/patches/ios/rct-folly/Expected.h], one string per source line (the
    last line has no terminating newline). *)
Definition Expected_h : list string :=
  [ "// Patch: guard coroutine include when FOLLY_HAS_COROUTINES is undefined or false";
    "// Source: Pods/Headers/Public/RCT-Folly/folly/Expected.h (modified)";
    "";
    "#if defined(FOLLY_HAS_COROUTINES) && FOLLY_HAS_COROUTINES";
    "#include <folly/coro/Coroutine.h>";
    "#endif" ].

(** The feature macro the guard is keyed on and the header it protects. *)
Definition FOLLY_HAS_COROUTINES : string := "FOLLY_HAS_COROUTINES".

(** ** Preprocessing tokens *)

Module Lex.

Inductive token : Type :=
| TId (name : string)        (* identifier *)
| TNum (spelling : string)   (* pp-number, kept as spelled *)
| TPunct (p : string).       (* punctuator or any other character *)

Definition token_eqb (a b : token) : bool :=
  match a, b with
  | TId x, TId y => String.eqb x y
  | TNum x, TNum y => String.eqb x y
  | TPunct x, TPunct y => String.eqb x y
  | _, _ => false
  end.

Definition code (c : ascii) : N := N_of_ascii c.

Definition in_range (lo hi : N) (c : ascii) : bool :=
  ((lo <=? code c) && (code c <=? hi))%N.

Definition is_space (c : ascii) : bool :=
  ((code c =? 32) || (code c =? 9) || (code c =? 11) || (code c =? 12)
   || (code c =? 13))%N.
Definition is_digit (c : ascii) : bool := in_range 48 57 c.
Definition is_id_start (c : ascii) : bool :=
  in_range 65 90 c || in_range 97 122 c || (code c =? 95)%N.
Definition is_id_char (c : ascii) : bool := is_id_start c || is_digit c.

Definition str1 (c : ascii) : string := String c EmptyString.
Definition str2 (c d : ascii) : string := String c (String d EmptyString).

(** Punctuators of two characters the lexer keeps together. *)
Definition two_char_puncts : list string :=
  ["&&"; "||"; "=="; "!="; "<="; ">="; "<<"; ">>"; "##"].

Definition is_two_char_punct (c d : ascii) : bool :=
  existsb (String.eqb (str2 c d)) two_char_puncts.

(** What the lexer is in the middle of. *)
Inductive lex_acc : Type :=
| LNone
| LWord (w : string)
| LNumber (w : string).

Definition flush (a : lex_acc) : list token :=
  match a with
  | LNone => []
  | LWord w => [TId w]
  | LNumber w => [TNum w]
  end.

Definition extends (a : lex_acc) (c : ascii) : bool :=
  match a with
  | LNone => false
  | LWord _ => is_id_char c
  | LNumber _ => is_id_char c || (code c =? 46)%N
  end.

Definition push (a : lex_acc) (c : ascii) : lex_acc :=
  match a with
  | LNone => LNone
  | LWord w => LWord (w ++ str1 c)
  | LNumber w => LNumber (w ++ str1 c)
  end.

(** Tokens of one logical line.  A [//] comment runs to the end of the
    line and yields no token. *)
Fixpoint lex (acc : lex_acc) (s : string) : list token :=
  match s with
  | EmptyString => flush acc
  | String c rest =>
      if extends acc c then lex (push acc c) rest
      else
        flush acc ++
        (if is_space c then lex LNone rest
         else if is_id_start c then lex (LWord (str1 c)) rest
         else if is_digit c then lex (LNumber (str1 c)) rest
         else
           match rest with
           | String d rest' =>
               if ((code c =? 47) && (code d =? 47))%N then []
               else if is_two_char_punct c d
                    then TPunct (str2 c d) :: lex LNone rest'
                    else TPunct (str1 c) :: lex LNone rest
           | EmptyString => [TPunct (str1 c)]
           end)
  end.

Definition tokens (s : string) : list token := lex LNone s.

Fixpoint skip_spaces (s : string) : string :=
  match s with
  | String c rest => if is_space c then skip_spaces rest else s
  | EmptyString => EmptyString
  end.

(** Longest prefix of [s] whose characters satisfy [p], and what follows. *)
Fixpoint span (p : ascii -> bool) (s : string) : string * string :=
  match s with
  | String c rest =>
      if p c then let '(w, r) := span p rest in (String c w, r)
      else (EmptyString, s)
  | EmptyString => (EmptyString, EmptyString)
  end.

End Lex.
Export Lex.

(** ** Directives *)

Module Directive.

(** The operand of [#include]. *)
Inductive header_ref : Type :=
| HAngle (path : string)         (* <path> *)
| HQuote (path : string)         (* the quoted form *)
| HTokens (toks : list token).   (* anything else: to be macro-expanded *)

Inductive directive : Type :=
| Text (toks : list token)
| If (cond : list token)
| Ifdef (operand : list token)
| Ifndef (operand : list token)
| Elif (cond : list token)
| Else (extra : list token)
| Endif (extra : list token)
| Define (name : string) (body : list token)
| DefineFn (name : string)
| DefineBad
| Undef (operand : list token)
| Include (h : header_ref) (extra : list token)
| Null
| Unknown (toks : list token).

Definition quote_code : N := 34.

(** [#include] reads its operand as a header name, not as tokens: the
    characters between the delimiters are taken as they are. *)
Definition parse_include (rest : string) : directive :=
  match skip_spaces rest with
  | String c after =>
      if (code c =? 60)%N then
        let '(path, r) := span (fun x => negb (code x =? 62)%N) after in
        match r with
        | String _ r' => Include (HAngle path) (tokens r')
        | EmptyString => Include (HTokens (tokens rest)) []
        end
      else if (code c =? quote_code)%N then
        let '(path, r) := span (fun x => negb (code x =? quote_code)%N) after in
        match r with
        | String _ r' => Include (HQuote path) (tokens r')
        | EmptyString => Include (HTokens (tokens rest)) []
        end
      else Include (HTokens (tokens rest)) []
  | EmptyString => Include (HTokens []) []
  end.

(** [#define]: an opening parenthesis right after the name makes the macro
    function-like. *)
Definition parse_define (rest : string) : directive :=
  let '(name, r) := span is_id_char (skip_spaces rest) in
  match name with
  | EmptyString => DefineBad
  | String c _ =>
      if is_digit c then DefineBad
      else
        match r with
        | String d _ => if (code d =? 40)%N then DefineFn name
                        else Define name (tokens r)
        | EmptyString => Define name []
        end
  end.

Definition parse_directive (name rest : string) : directive :=
  if String.eqb name "if" then If (tokens rest)
  else if String.eqb name "ifdef" then Ifdef (tokens rest)
  else if String.eqb name "ifndef" then Ifndef (tokens rest)
  else if String.eqb name "elif" then Elif (tokens rest)
  else if String.eqb name "else" then Else (tokens rest)
  else if String.eqb name "endif" then Endif (tokens rest)
  else if String.eqb name "define" then parse_define rest
  else if String.eqb name "undef" then Undef (tokens rest)
  else if String.eqb name "include" then parse_include rest
  else Unknown (TId name :: tokens rest).

(** A line whose first non-blank character is [#] is a directive; any
    other line is text. *)
Definition parse_line (line : string) : directive :=
  match skip_spaces line with
  | String c after =>
      if (code c =? 35)%N then
        let '(name, rest) := span is_id_char (skip_spaces after) in
        match name with
        | EmptyString =>
            match tokens rest with
            | [] => Null
            | toks => Unknown toks
            end
        | _ => parse_directive name rest
        end
      else Text (tokens line)
  | EmptyString => Text []
  end.

Definition parse_file (lines : list string) : list directive :=
  map parse_line lines.

End Directive.
Export Directive.

(** The header the guard protects, as the source spells it. *)
Definition coroutine_header : header_ref := HAngle "folly/coro/Coroutine.h".

(** ** Integer literals *)

Module Number.

Definition digit_of (base : N) (c : ascii) : option N :=
  let d := if is_digit c then Some (code c - 48)%N
           else if in_range 97 102 c then Some (code c - 87)%N
           else if in_range 65 70 c then Some (code c - 55)%N
           else None in
  match d with
  | Some v => if (v <? base)%N then Some v else None
  | None => None
  end.

(** Reads the digits of a literal in [base]; gives the value read and the
    unread suffix, or nothing when there is no digit at all. *)
Fixpoint read_digits (base acc : N) (seen : bool) (s : string)
  : option (N * string) :=
  match s with
  | EmptyString => if seen then Some (acc, EmptyString) else None
  | String c rest =>
      match digit_of base c with
      | Some d => read_digits base (acc * base + d)%N true rest
      | None => if seen then Some (acc, s) else None
      end
  end.

Definition int_suffixes : list string :=
  [ ""; "u"; "U"; "l"; "L"; "ll"; "LL";
    "ul"; "uL"; "Ul"; "UL"; "lu"; "lU"; "Lu"; "LU";
    "ull"; "uLL"; "Ull"; "ULL"; "llu"; "llU"; "LLu"; "LLU" ].

(** Preprocessor arithmetic is done in the widest integer type. *)
Definition uintmax_bits : N := 64.

Definition finish (r : option (N * string)) : option N :=
  match r with
  | Some (n, suffix) =>
      if existsb (String.eqb suffix) int_suffixes && (n <? 2 ^ uintmax_bits)%N
      then Some n else None
  | None => None
  end.

(** The value of a pp-number that is a valid integer literal: decimal,
    octal (leading 0), hexadecimal (0x) or binary (0b), with an optional
    integer suffix, and representable in the widest unsigned type. *)
Definition int_value (s : string) : option N :=
  match s with
  | String z (String x rest) =>
      if (code z =? 48)%N then
        if ((code x =? 120) || (code x =? 88))%N
        then finish (read_digits 16 0 false rest)
        else if ((code x =? 98) || (code x =? 66))%N
        then finish (read_digits 2 0 false rest)
        else finish (read_digits 8 0 true (String x rest))
      else finish (read_digits 10 0 false s)
  | _ => finish (read_digits 10 0 false s)
  end.

Fixpoint any_char (p : ascii -> bool) (s : string) : bool :=
  match s with
  | String c rest => p c || any_char p rest
  | EmptyString => false
  end.

Definition is_decimal (s : string) : bool :=
  match s with
  | String c _ => in_range 49 57 c
  | EmptyString => false
  end.

Definition has_unsigned_suffix (s : string) : bool :=
  any_char (fun c => (code c =? 117) || (code c =? 85))%N s.

(** A decimal literal without an unsigned suffix whose value does not fit
    the widest signed type is taken as unsigned, and this is diagnosed;
    octal, hexadecimal and binary literals of the same value are not. *)
Definition large_unsigned (s : string) : bool :=
  match int_value s with
  | Some n =>
      is_decimal s && negb (has_unsigned_suffix s)
      && (2 ^ (uintmax_bits - 1) <=? n)%N
  | None => false
  end.

End Number.
Export Number.

(** ** Macro replacement *)

Module Macro.

(** The symbol table: object-like macros and their replacement lists. *)
Abbreviation macro_table := (gmap string (list token)).

Definition is_defined (env : macro_table) (x : string) : bool :=
  match env !! x with Some _ => true | None => false end.

(** Replaces every identifier that names a macro by its replacement list
    and rescans the result; a macro is not replaced inside its own
    expansion ([hide]). *)
Fixpoint expand (env : macro_table) (fuel : nat) (hide : list string)
         (toks : list token) : list token :=
  match fuel with
  | O => toks
  | S f =>
      flat_map
        (fun t =>
           match t with
           | TId x =>
               match env !! x with
               | Some body =>
                   if existsb (String.eqb x) hide then [t]
                   else expand env f (x :: hide) body
               | None => [t]
               end
           | _ => [t]
           end) toks
  end.

(** Every nested expansion hides one more macro of the table, so the
    nesting is no deeper than the table is large. *)
Definition expand_all (env : macro_table) (toks : list token) : list token :=
  expand env (S (size env)) [] toks.

Definition bit (b : bool) : token := TNum (if b then "1" else "0").

(** The [defined] operator of [#if]: [defined X] and [defined(X)] become
    1 or 0 before macro replacement, and [X] itself is not replaced. *)
Fixpoint resolve_defined (env : macro_table) (toks : list token)
  : option (list token) :=
  match toks with
  | [] => Some []
  | TId x :: rest =>
      if String.eqb x "defined" then
        match rest with
        | TId y :: rest' =>
            match resolve_defined env rest' with
            | Some r => Some (bit (is_defined env y) :: r)
            | None => None
            end
        | TPunct p :: TId y :: TPunct q :: rest' =>
            if String.eqb p "(" && String.eqb q ")" then
              match resolve_defined env rest' with
              | Some r => Some (bit (is_defined env y) :: r)
              | None => None
              end
            else None
        | _ => None
        end
      else
        match resolve_defined env rest with
        | Some r => Some (TId x :: r)
        | None => None
        end
  | t :: rest =>
      match resolve_defined env rest with
      | Some r => Some (t :: r)
      | None => None
      end
  end.

End Macro.
Export Macro.

(** ** Controlling expressions of [#if] *)

Module Expr.

Inductive pp_expr : Type :=
| ENum (spelling : string)
| EId (name : string)
| ENot (e : pp_expr)
| EAnd (l r : pp_expr)
| EOr (l r : pp_expr).

(** Operators waiting on the parser's stack. *)
Inductive op : Type := OpNot | OpAnd | OpOr | OpParen.

Definition is_not (o : op) : bool :=
  match o with OpNot => true | _ => false end.
Definition is_and (o : op) : bool :=
  match o with OpAnd => true | _ => false end.
Definition is_and_or (o : op) : bool :=
  match o with OpAnd | OpOr => true | _ => false end.
Definition not_paren (o : op) : bool :=
  match o with OpParen => false | _ => true end.

Definition apply_op (o : op) (operands : list pp_expr)
  : option (list pp_expr) :=
  match o, operands with
  | OpNot, e :: more => Some (ENot e :: more)
  | OpAnd, r :: l :: more => Some (EAnd l r :: more)
  | OpOr, r :: l :: more => Some (EOr l r :: more)
  | _, _ => None
  end.

(** Pops and applies the operators on top of the stack that satisfy [p]. *)
Fixpoint reduce_while (p : op -> bool) (ops : list op)
         (operands : list pp_expr) : option (list op * list pp_expr) :=
  match ops with
  | o :: ops' =>
      if p o then
        match apply_op o operands with
        | Some operands' => reduce_while p ops' operands'
        | None => None
        end
      else Some (ops, operands)
  | [] => Some ([], operands)
  end.

(** Operator-precedence parser: [!] binds tighter than [&&], which binds
    tighter than [||]; both binary operators associate to the left.
    [need] says that an operand is expected next.  Arithmetic, comparison
    and conditional operators are outside this model: an expression that
    uses one does not parse. *)
Fixpoint parse_loop (toks : list token) (operands : list pp_expr)
         (ops : list op) (need : bool) : option pp_expr :=
  match toks with
  | [] =>
      if need then None
      else
        match reduce_while not_paren ops operands with
        | Some ([], [e]) => Some e
        | _ => None
        end
  | t :: rest =>
      if need then
        match t with
        | TNum s =>
            match reduce_while is_not ops (ENum s :: operands) with
            | Some (ops', operands') => parse_loop rest operands' ops' false
            | None => None
            end
        | TId x =>
            match reduce_while is_not ops (EId x :: operands) with
            | Some (ops', operands') => parse_loop rest operands' ops' false
            | None => None
            end
        | TPunct p =>
            if String.eqb p "!" then parse_loop rest operands (OpNot :: ops) true
            else if String.eqb p "("
                 then parse_loop rest operands (OpParen :: ops) true
                 else None
        end
      else
        match t with
        | TPunct p =>
            if String.eqb p "&&" then
              match reduce_while is_and ops operands with
              | Some (ops', operands') =>
                  parse_loop rest operands' (OpAnd :: ops') true
              | None => None
              end
            else if String.eqb p "||" then
              match reduce_while is_and_or ops operands with
              | Some (ops', operands') =>
                  parse_loop rest operands' (OpOr :: ops') true
              | None => None
              end
            else if String.eqb p ")" then
              match reduce_while not_paren ops operands with
              | Some (OpParen :: ops', operands') =>
                  match reduce_while is_not ops' operands' with
                  | Some (ops'', operands'') =>
                      parse_loop rest operands'' ops'' false
                  | None => None
                  end
              | _ => None
              end
            else None
        | _ => None
        end
  end.

Definition parse_expr (toks : list token) : option pp_expr :=
  parse_loop toks [] [] true.

Inductive diagnostic : Type :=
| Diag_undef (name : string)          (* identifier is not defined, evaluates to 0 *)
| Diag_bad_number (spelling : string) (* not a valid integer constant *)
| Diag_large_unsigned (spelling : string) (* so large that it is unsigned *)
| Diag_bad_defined                    (* operator defined without a macro name *)
| Diag_bad_expr                       (* expression missing, malformed or not modelled *)
| Diag_no_macro_name                  (* #ifdef, #ifndef, #undef, #define *)
| Diag_without_if (d : string)        (* #else, #elif, #endif without #if *)
| Diag_after_else (d : string)        (* #else or #elif after #else *)
| Diag_unterminated                   (* conditional open at end of file *)
| Diag_extra_tokens (d : string)      (* extra tokens at end of directive *)
| Diag_redefined (name : string)
| Diag_invalid_directive
| Diag_not_modelled (d : string).     (* function-like macro, computed include *)

(** The outcome of evaluating an expression: its value, the diagnostics
    raised, and the identifiers whose value was asked for. *)
Record evaluation : Type := Evaluation {
  ev_value : Z;
  ev_diags : list diagnostic;
  ev_tested : list string
}.

Definition truth (v : Z) : bool := negb (v =? 0)%Z.
Definition of_bool (b : bool) : Z := if b then 1%Z else 0%Z.

(** The value of an identifier that is left after macro replacement: the
    C++ keywords [true] and [false] apart, it is 0, and asking for it is
    diagnosed when undefined-identifier warnings are on.  This is the rule
    for ordinary identifiers ([ordinary_identifier] below); the operator
    [defined] reappearing after macro replacement, the alternative operator
    spellings of C++ and the names a compiler builds in are not given their
    special meaning here. *)
Definition eval_id (wundef skip : bool) (x : string) : evaluation :=
  if String.eqb x "true" then Evaluation 1 [] []
  else if String.eqb x "false" then Evaluation 0 [] []
  else Evaluation 0
         (if wundef && negb skip then [Diag_undef x] else [])
         (if skip then [] else [x]).

(** [skip] is set inside an operand whose value cannot matter: the right
    operand of [&&] after a zero, of [||] after a nonzero.  Such an
    operand is still checked for well-formed literals, but no identifier
    in it is evaluated.  A literal is diagnosed when it is not an integer
    constant, and when it is a decimal constant too large to be signed. *)
Fixpoint eval (wundef skip : bool) (e : pp_expr) : evaluation :=
  match e with
  | ENum s =>
      match int_value s with
      | Some n =>
          Evaluation (Z.of_N n)
                     (if large_unsigned s then [Diag_large_unsigned s] else [])
                     []
      | None => Evaluation 0 [Diag_bad_number s] []
      end
  | EId x => eval_id wundef skip x
  | ENot a =>
      let r := eval wundef skip a in
      Evaluation (of_bool (negb (truth (ev_value r)))) (ev_diags r) (ev_tested r)
  | EAnd a b =>
      let l := eval wundef skip a in
      let r := eval wundef (skip || negb (truth (ev_value l))) b in
      Evaluation (of_bool (truth (ev_value l) && truth (ev_value r)))
                 (ev_diags l ++ ev_diags r) (ev_tested l ++ ev_tested r)
  | EOr a b =>
      let l := eval wundef skip a in
      let r := eval wundef (skip || truth (ev_value l)) b in
      Evaluation (of_bool (truth (ev_value l) || truth (ev_value r)))
                 (ev_diags l ++ ev_diags r) (ev_tested l ++ ev_tested r)
  end.

(** [#if] / [#elif]: resolve [defined], replace macros, parse, evaluate.
    An expression that cannot be evaluated is diagnosed and counts as
    false.  [defined] is resolved in the directive's own tokens; one that
    only appears through macro replacement is not treated as the operator
    here. *)
Definition eval_if (wundef : bool) (env : macro_table) (cond : list token)
  : evaluation :=
  match resolve_defined env cond with
  | None => Evaluation 0 [Diag_bad_defined] []
  | Some toks =>
      match parse_expr (expand_all env toks) with
      | None => Evaluation 0 [Diag_bad_expr] []
      | Some e => eval wundef false e
      end
  end.

End Expr.
Export Expr.

(** ** The preprocessor state and its transitions *)

Module Preprocessor.

(** What a file hands to the translation unit. *)
Inductive out_item : Type :=
| OTokens (toks : list token)     (* a line of program text *)
| OInclude (h : header_ref).      (* textual inclusion of a header *)

(** One open conditional. *)
Record if_frame : Type := Frame {
  was_skipping : bool;   (* the enclosing group was being skipped *)
  skip_elses : bool;     (* a group of this conditional was already taken *)
  seen_else : bool
}.

Record pp_state : Type := State {
  pp_wundef : bool;                  (* warn on undefined identifiers in #if *)
  pp_macros : macro_table;
  pp_skipping : bool;
  pp_if_stack : list if_frame;
  pp_output : list out_item;
  pp_diags : list diagnostic;
  pp_tested : list string            (* non-macro identifiers evaluated in #if *)
}.

Definition set_macros (st : pp_state) (m : macro_table) : pp_state :=
  State (pp_wundef st) m (pp_skipping st) (pp_if_stack st)
        (pp_output st) (pp_diags st) (pp_tested st).

Definition set_cond (st : pp_state) (skipping : bool) (stack : list if_frame)
  : pp_state :=
  State (pp_wundef st) (pp_macros st) skipping stack
        (pp_output st) (pp_diags st) (pp_tested st).

Definition emit (st : pp_state) (o : out_item) : pp_state :=
  State (pp_wundef st) (pp_macros st) (pp_skipping st) (pp_if_stack st)
        (pp_output st ++ [o]) (pp_diags st) (pp_tested st).

Definition report (st : pp_state) (ds : list diagnostic) : pp_state :=
  State (pp_wundef st) (pp_macros st) (pp_skipping st) (pp_if_stack st)
        (pp_output st) (pp_diags st ++ ds) (pp_tested st).

Definition record_tested (st : pp_state) (xs : list string) : pp_state :=
  State (pp_wundef st) (pp_macros st) (pp_skipping st) (pp_if_stack st)
        (pp_output st) (pp_diags st) (pp_tested st ++ xs).

Definition tokens_eqb (a b : list token) : bool :=
  (length a =? length b)%nat && forallb (fun p => token_eqb (fst p) (snd p)) (combine a b).

Definition extra_tokens (d : string) (extra : list token) : list diagnostic :=
  match extra with [] => [] | _ => [Diag_extra_tokens d] end.

(** Opens a conditional whose first group is taken iff [taken]. *)
Definition push_conditional (st : pp_state) (taken : bool) : pp_state :=
  set_cond st (negb taken)
           (Frame (pp_skipping st) (pp_skipping st || taken) false
              :: pp_if_stack st).

(** [#if]: inside a skipped group the expression is not looked at. *)
Definition do_if (st : pp_state) (cond : list token) : pp_state :=
  if pp_skipping st then push_conditional st false
  else
    let r := eval_if (pp_wundef st) (pp_macros st) cond in
    push_conditional (record_tested (report st (ev_diags r)) (ev_tested r))
                     (truth (ev_value r)).

(** [#ifdef] ([sense = true]) and [#ifndef] ([sense = false]). *)
Definition do_ifdef (st : pp_state) (sense : bool) (operand : list token)
  : pp_state :=
  if pp_skipping st then push_conditional st false
  else
    match operand with
    | TId x :: extra =>
        push_conditional (report st (extra_tokens "ifdef" extra))
                         (Bool.eqb (is_defined (pp_macros st) x) sense)
    | _ => push_conditional (report st [Diag_no_macro_name]) false
    end.

Definition do_elif (st : pp_state) (cond : list token) : pp_state :=
  match pp_if_stack st with
  | [] => report st [Diag_without_if "elif"]
  | f :: below =>
      if seen_else f then report st [Diag_after_else "elif"]
      else if skip_elses f then set_cond st true (f :: below)
      else
        let r := eval_if (pp_wundef st) (pp_macros st) cond in
        let taken := truth (ev_value r) in
        set_cond (record_tested (report st (ev_diags r)) (ev_tested r))
                 (negb taken)
                 (Frame (was_skipping f) taken false :: below)
  end.

Definition do_else (st : pp_state) (extra : list token) : pp_state :=
  match pp_if_stack st with
  | [] => report st [Diag_without_if "else"]
  | f :: below =>
      if seen_else f then report st [Diag_after_else "else"]
      else
        let st' := set_cond st (skip_elses f)
                            (Frame (was_skipping f) true true :: below) in
        if was_skipping f then st' else report st' (extra_tokens "else" extra)
  end.

Definition do_endif (st : pp_state) (extra : list token) : pp_state :=
  match pp_if_stack st with
  | [] => report st [Diag_without_if "endif"]
  | f :: below =>
      let st' := set_cond st (was_skipping f) below in
      if was_skipping f then st' else report st' (extra_tokens "endif" extra)
  end.

Definition do_define (st : pp_state) (name : string) (body : list token)
  : pp_state :=
  match pp_macros st !! name with
  | Some old =>
      if tokens_eqb old body then st
      else report (set_macros st (<[name := body]> (pp_macros st)))
                  [Diag_redefined name]
  | None => set_macros st (<[name := body]> (pp_macros st))
  end.

Definition do_undef (st : pp_state) (operand : list token) : pp_state :=
  match operand with
  | TId x :: extra =>
      report (set_macros st (delete x (pp_macros st)))
             (extra_tokens "undef" extra)
  | _ => report st [Diag_no_macro_name]
  end.

(** [#include]: the decision to include is recorded as an output event;
    reading the named header is the business of whoever consumes it. *)
Definition do_include (st : pp_state) (h : header_ref) (extra : list token)
  : pp_state :=
  match h with
  | HTokens _ => report st [Diag_not_modelled "include"]
  | _ => report (emit st (OInclude h)) (extra_tokens "include" extra)
  end.

Definition do_text (st : pp_state) (toks : list token) : pp_state :=
  match toks with
  | [] => st
  | _ => emit st (OTokens (expand_all (pp_macros st) toks))
  end.

(** One line.  The conditional directives are obeyed everywhere; every
    other line is ignored while a group is being skipped. *)
Definition step (st : pp_state) (d : directive) : pp_state :=
  match d with
  | If cond => do_if st cond
  | Ifdef operand => do_ifdef st true operand
  | Ifndef operand => do_ifdef st false operand
  | Elif cond => do_elif st cond
  | Else extra => do_else st extra
  | Endif extra => do_endif st extra
  | _ =>
      if pp_skipping st then st
      else
        match d with
        | Text toks => do_text st toks
        | Define name body => do_define st name body
        | DefineFn _ => report st [Diag_not_modelled "define"]
        | DefineBad => report st [Diag_no_macro_name]
        | Undef operand => do_undef st operand
        | Include h extra => do_include st h extra
        | Null => st
        | Unknown _ => report st [Diag_invalid_directive]
        | _ => st
        end
  end.

Definition run (st : pp_state) (ds : list directive) : pp_state :=
  fold_left step ds st.

(** A file is entered outside any skipped group with a conditional stack
    of its own; a conditional still open at its end is diagnosed, and the
    includer's conditional state is put back. *)
Definition process_file (st : pp_state) (lines : list string) : pp_state :=
  let st' := run (set_cond st false []) (parse_file lines) in
  let st'' := match pp_if_stack st' with
              | [] => st'
              | _ => report st' [Diag_unterminated]
              end in
  set_cond st'' (pp_skipping st) (pp_if_stack st).

(** A fresh state for a macro table. *)
Definition initial (wundef : bool) (env : macro_table) : pp_state :=
  State wundef env false [] [] [] [].

End Preprocessor.
Export Preprocessor.

(** ** The patch *)

(** Processing the patched header at its point of inclusion. *)
Definition run_patch (st : pp_state) : pp_state := process_file st Expected_h.

(** What the patch adds to the output, to the diagnostics and to the
    evaluated identifiers. *)
Definition emitted (st : pp_state) : list out_item :=
  drop (length (pp_output st)) (pp_output (run_patch st)).
Definition diagnosed (st : pp_state) : list diagnostic :=
  drop (length (pp_diags st)) (pp_diags (run_patch st)).
Definition tested (st : pp_state) : list string :=
  drop (length (pp_tested st)) (pp_tested (run_patch st)).

(** The states of the feature macro the specification distinguishes. *)
Inductive macro_state : Type :=
| Undefined
| DefinedInt (n : N)     (* replacement list is one integer literal of value n *)
| DefinedOther.          (* any other replacement list *)

Definition macro_state_of (env : macro_table) (x : string) : macro_state :=
  match env !! x with
  | None => Undefined
  | Some [TNum s] =>
      match int_value s with
      | Some n => DefinedInt n
      | None => DefinedOther
      end
  | Some _ => DefinedOther
  end.

(** The guard's decision: on iff the macro is defined to a nonzero integer. *)
Definition guard_on (m : macro_state) : bool :=
  match m with
  | DefinedInt n => negb (n =? 0)%N
  | _ => false
  end.

(** The controlling expression of the guard, as lexed from line 4. *)
Definition guard_cond : list token :=
  [TId "defined"; TPunct "("; TId FOLLY_HAS_COROUTINES; TPunct ")";
   TPunct "&&"; TId FOLLY_HAS_COROUTINES].

(** Directives that can change the symbol table. *)
Definition changes_macros (d : directive) : bool :=
  match d with
  | Define _ _ | DefineFn _ | DefineBad | Undef _ => true
  | _ => false
  end.

Definition is_inclusion (o : out_item) : bool :=
  match o with OInclude _ => true | OTokens _ => false end.

(** Number of textual inclusions in a stretch of output. *)
Definition inclusions (out : list out_item) : nat :=
  length (filter (fun o => is_inclusion o = true) out).

(** Number of program-text tokens in a stretch of output. *)
Definition text_tokens (out : list out_item) : nat :=
  list_sum (map (fun o => match o with OTokens t => length t | OInclude _ => 0 end) out).

(** A symbol is visible after preprocessing when some header included in the
    output declares it; what each header declares is not part of this
    repository and stays a parameter. *)
Definition visible (declares : header_ref -> list string)
           (out : list out_item) (sym : string) : Prop :=
  exists h, In (OInclude h) out /\ In sym (declares h).

(** Sample states: a translation unit that has already produced some text,
    with the feature macro undefined, defined to 0, to 1 and to 0x10. *)
Definition sample_state (env : macro_table) : pp_state :=
  State true env false [] [OTokens [TId "namespace"; TId "folly"; TPunct "{"]] [] [].

Definition st_undefined : pp_state :=
  sample_state {[ "NDEBUG" := [] ]}.
Definition st_zero : pp_state :=
  sample_state {[ "NDEBUG" := []; FOLLY_HAS_COROUTINES := [TNum "0"] ]}.
Definition st_one : pp_state :=
  sample_state {[ "NDEBUG" := []; FOLLY_HAS_COROUTINES := [TNum "1"] ]}.
Definition st_hex : pp_state :=
  State false {[ FOLLY_HAS_COROUTINES := [TNum "0x10"] ]} false [] [] [] [].

(** A state that agrees with [st_one] on the feature macro only: another
    spelling of the value 1, other macros, warnings off, another history,
    and the header included from inside a conditional group that is being
    taken. *)
Definition st_one_elsewhere : pp_state :=
  State false
        {[ FOLLY_HAS_COROUTINES := [TNum "0x1"]; "FOLLY_MOBILE" := [TNum "1"] ]}
        false [Frame false true false]
        [OInclude (HAngle "utility")] [Diag_invalid_directive] ["__APPLE__"].

(** A sample of what the protected header declares. *)
Definition sample_declares (h : header_ref) : list string :=
  match h with
  | HAngle p =>
      if String.eqb p "folly/coro/Coroutine.h"
      then ["coroutine_handle"; "suspend_always"; "suspend_never"]
      else []
  | _ => []
  end.

(** The lexer above knows [//] comments only.  A line is inside what it
    models when it has no backslash (line splicing, escapes), no quote or
    apostrophe (string and character literals) and no block comment. *)
Fixpoint plain_line (s : string) : bool :=
  match s with
  | EmptyString => true
  | String c rest =>
      negb ((code c =? 92) || (code c =? 34) || (code c =? 39))%N
      && match rest with
         | String d _ => negb ((code c =? 47) && (code d =? 42))%N
         | EmptyString => true
         end
      && plain_line rest
  end.

(** The same guard without the [defined] conjunct, for comparison. *)
Definition unguarded_cond : list token := [TId FOLLY_HAS_COROUTINES].

(** ** Further definitions: the guard beyond the three states *)

(** Diagnostics about the directives of a file themselves, as opposed to
    those raised while a controlling expression is evaluated. *)
Definition structural_diag (d : diagnostic) : bool :=
  match d with
  | Diag_no_macro_name | Diag_without_if _ | Diag_after_else _
  | Diag_unterminated | Diag_extra_tokens _ | Diag_redefined _
  | Diag_invalid_directive | Diag_not_modelled _ => true
  | _ => false
  end.

(** Words that look like identifiers but are not ordinary ones in a
    controlling expression of C++: the operator [defined], the boolean
    keywords and the alternative spellings of operators. *)
Definition reserved_words : list string :=
  [ "defined"; "true"; "false"; "and"; "and_eq"; "bitand"; "bitor"; "compl";
    "not"; "not_eq"; "or"; "or_eq"; "xor"; "xor_eq" ].

Definition is_letter (c : ascii) : bool :=
  in_range 65 90 c || in_range 97 122 c.

Fixpoint all_chars (p : ascii -> bool) (s : string) : bool :=
  match s with
  | String c rest => p c && all_chars p rest
  | EmptyString => true
  end.

(** An identifier that starts with a letter and is none of the reserved
    words.  Names that start with an underscore are left out: they belong
    to the implementation, which builds some of them in. *)
Definition ordinary_identifier (y : string) : bool :=
  match y with
  | String c rest =>
      is_letter c && all_chars is_id_char rest
      && negb (existsb (String.eqb y) reserved_words)
  | EmptyString => false
  end.

(** The tokens of the expressions modelled in full: valid integer
    literals, the boolean keywords, [!], [&&], [||] and parentheses. *)
Definition fragment_token (t : token) : bool :=
  match t with
  | TNum s => match int_value s with Some _ => true | None => false end
  | TId x => String.eqb x "true" || String.eqb x "false"
  | TPunct p => existsb (String.eqb p) ["!"; "&&"; "||"; "("; ")"]
  end.

(** Expressions in which no identifier is left to evaluate. *)
Fixpoint closed_expr (e : pp_expr) : bool :=
  match e with
  | ENum _ => true
  | EId x => String.eqb x "true" || String.eqb x "false"
  | ENot a => closed_expr a
  | EAnd a b | EOr a b => closed_expr a && closed_expr b
  end.

(** *** The parser, one token at a time *)

(** Same evaluation up to the truth of the value: neither operand of [!],
    [&&] or [||] is looked at beyond whether it is zero. *)
Definition eqv (e e' : pp_expr) : Prop :=
  forall w s,
    truth (ev_value (eval w s e)) = truth (ev_value (eval w s e'))
    /\ ev_diags (eval w s e) = ev_diags (eval w s e')
    /\ ev_tested (eval w s e) = ev_tested (eval w s e').

Fixpoint binary_ops (ops : list op) : nat :=
  match ops with
  | [] => 0
  | o :: more => (if is_and_or o then 1 else 0) + binary_ops more
  end.

(** What [parse_loop] does with one token. *)
Definition parser_step (t : token) (xs : list pp_expr) (ops : list op)
           (need : bool) : option (list pp_expr * list op * bool) :=
  if need then
    match t with
    | TNum s =>
        match reduce_while is_not ops (ENum s :: xs) with
        | Some (ops', xs') => Some (xs', ops', false)
        | None => None
        end
    | TId x =>
        match reduce_while is_not ops (EId x :: xs) with
        | Some (ops', xs') => Some (xs', ops', false)
        | None => None
        end
    | TPunct p =>
        if String.eqb p "!" then Some (xs, OpNot :: ops, true)
        else if String.eqb p "(" then Some (xs, OpParen :: ops, true)
        else None
    end
  else
    match t with
    | TPunct p =>
        if String.eqb p "&&" then
          match reduce_while is_and ops xs with
          | Some (ops', xs') => Some (xs', OpAnd :: ops', true)
          | None => None
          end
        else if String.eqb p "||" then
          match reduce_while is_and_or ops xs with
          | Some (ops', xs') => Some (xs', OpOr :: ops', true)
          | None => None
          end
        else if String.eqb p ")" then
          match reduce_while not_paren ops xs with
          | Some (OpParen :: ops', xs') =>
              match reduce_while is_not ops' xs' with
              | Some (ops'', xs'') => Some (xs'', ops'', false)
              | None => None
              end
          | _ => None
          end
        else None
    | _ => None
    end.

(** What [parse_loop] does at the end of the tokens. *)
Definition parser_finish (xs : list pp_expr) (ops : list op) (need : bool)
  : option pp_expr :=
  if need then None
  else
    match reduce_while not_paren ops xs with
    | Some ([], [e]) => Some e
    | _ => None
    end.

(** Operands and pending binary operators are in step. *)
Definition balanced (xs : list pp_expr) (ops : list op) (need : bool) : Prop :=
  length xs + (if need then 1 else 0) = S (binary_ops ops).

(** The parser on [body] alone (left) against the parser on [1 && body]
    (right): either the [1 &&] still lies at the bottom of the right-hand
    stacks, or it has been reduced into an operand that evaluates alike. *)
Inductive sim : list pp_expr * list op * bool ->
                list pp_expr * list op * bool -> Prop :=
| sim_bottom xs ops need :
    balanced xs ops need ->
    sim (xs, ops, need) (xs ++ [ENum "1"], ops ++ [OpAnd], need)
| sim_merged xs xs' ops need :
    Forall2 eqv xs xs' ->
    sim (xs, ops, need) (xs', ops, need).

(** Lines a translation unit may put right before it includes the header. *)
Definition undef_line : string := "#undef FOLLY_HAS_COROUTINES".
Definition define_line : string := "#define FOLLY_HAS_COROUTINES 1".

(** More sample states: the feature macro defined to nothing, to
    [0 || (1)], to another macro, to an unknown name, and to the keyword
    [true]. *)
Definition st_empty : pp_state :=
  sample_state {[ FOLLY_HAS_COROUTINES := [] ]}.
Definition or_body : list token :=
  [TNum "0"; TPunct "||"; TPunct "("; TNum "1"; TPunct ")"].
Definition st_or : pp_state :=
  sample_state {[ FOLLY_HAS_COROUTINES := or_body ]}.
Definition st_indirect : pp_state :=
  sample_state {[ FOLLY_HAS_COROUTINES := [TId "FOLLY_CFG_CORO"];
                  "FOLLY_CFG_CORO" := [TNum "1"] ]}.
Definition unknown_table : macro_table :=
  {[ FOLLY_HAS_COROUTINES := [TId "YES"] ]}.
Definition st_unknown : pp_state := sample_state unknown_table.
Definition st_true : pp_state :=
  sample_state {[ FOLLY_HAS_COROUTINES := [TId "true"] ]}.

(** * Properties *)

(** ** The file as the preprocessor sees it *)

Example lex_guard_line :
  tokens "#if defined(FOLLY_HAS_COROUTINES) && FOLLY_HAS_COROUTINES"
  = TPunct "#" :: TId "if" :: guard_cond.
Proof. reflexivity. Qed.

Example lex_comment_line :
  tokens "// Source: Pods/Headers/Public/RCT-Folly/folly/Expected.h (modified)" = [].
Proof. reflexivity. Qed.

(** Two comment lines, a blank line, and one conditional group holding one
    [#include]. *)
Lemma Expected_h_directives :
  parse_file Expected_h
  = [Text []; Text []; Text []; If guard_cond;
     Include coroutine_header []; Endif []].
Proof. reflexivity. Qed.

(** The file stays inside the lexical fragment that is modelled. *)
Example Expected_h_plain : forallb plain_line Expected_h = true.
Proof. reflexivity. Qed.

(** Evaluating an identifier that is not a macro is diagnosed, unless it
    stands in a skipped operand. *)
Example eval_evaluated_identifier :
  eval true false (EId FOLLY_HAS_COROUTINES)
  = Evaluation 0 [Diag_undef FOLLY_HAS_COROUTINES] [FOLLY_HAS_COROUTINES].
Proof. reflexivity. Qed.

Example eval_skipped_identifier :
  eval true true (EId FOLLY_HAS_COROUTINES) = Evaluation 0 [] [].
Proof. reflexivity. Qed.

Example parse_guard_cond :
  parse_expr [TNum "1"; TPunct "&&"; TNum "1"] = Some (EAnd (ENum "1") (ENum "1")).
Proof. reflexivity. Qed.

(** ** General facts about the transitions *)

Section Transitions.

Local Ltac crush_step :=
  unfold step, do_if, do_ifdef, do_elif, do_else, do_endif, do_define,
    do_undef, do_include, do_text, push_conditional, set_cond, set_macros,
    emit, report, record_tested;
  repeat case_match; cbn.

Lemma step_wundef st d : pp_wundef (step st d) = pp_wundef st.
Proof. crush_step; reflexivity. Qed.

Lemma step_macros st d :
  changes_macros d = false -> pp_macros (step st d) = pp_macros st.
Proof. intros H. destruct d; try discriminate H; crush_step; reflexivity. Qed.

Lemma step_output st d :
  exists items, pp_output (step st d) = pp_output st ++ items.
Proof.
  crush_step;
    first [ by (exists []; rewrite app_nil_r) | by eexists ].
Qed.

Lemma step_diags st d :
  exists ds, pp_diags (step st d) = pp_diags st ++ ds.
Proof.
  crush_step;
    first [ by (exists []; rewrite app_nil_r)
          | by eexists
          | by (rewrite <- app_assoc; eexists) ].
Qed.

Lemma run_wundef ds : forall st, pp_wundef (run st ds) = pp_wundef st.
Proof.
  induction ds as [|d ds IH]; intros st; [reflexivity|].
  cbn. unfold run in IH. rewrite IH. apply step_wundef.
Qed.

(** A file without [#define] and [#undef] leaves the symbol table as it
    found it. *)
Lemma run_macros ds :
  forallb (fun d => negb (changes_macros d)) ds = true ->
  forall st, pp_macros (run st ds) = pp_macros st.
Proof.
  induction ds as [|d ds IH]; intros H st; [reflexivity|].
  cbn in H. apply andb_prop in H as [Hd Hds].
  cbn. unfold run in IH. rewrite (IH Hds).
  apply step_macros. by destruct (changes_macros d).
Qed.

(** Output and diagnostics are only ever appended to. *)
Lemma run_output ds :
  forall st, exists items, pp_output (run st ds) = pp_output st ++ items.
Proof.
  induction ds as [|d ds IH]; intros st.
  - exists []. by rewrite app_nil_r.
  - cbn. destruct (IH (step st d)) as [more Hmore].
    destruct (step_output st d) as [items Hitems].
    exists (items ++ more). unfold run in Hmore.
    by rewrite Hmore, Hitems, app_assoc.
Qed.

Lemma run_diags ds :
  forall st, exists new, pp_diags (run st ds) = pp_diags st ++ new.
Proof.
  induction ds as [|d ds IH]; intros st.
  - exists []. by rewrite app_nil_r.
  - cbn. destruct (IH (step st d)) as [more Hmore].
    destruct (step_diags st d) as [new Hnew].
    exists (new ++ more). unfold run in Hmore.
    by rewrite Hmore, Hnew, app_assoc.
Qed.

End Transitions.

(** ** Macro replacement never runs out of fuel *)

Section Fuel.
Variable env : macro_table.

Lemma hidden_spec x (hide : list string) :
  existsb (String.eqb x) hide = true <-> x ∈ hide.
Proof.
  rewrite existsb_exists, list_elem_of_In. split.
  - intros [y [Hy Heq]]. apply String.eqb_eq in Heq. by subst.
  - intros H. exists x. split; [done | apply String.eqb_refl].
Qed.

Lemma flat_map_singleton (toks : list token) :
  flat_map (fun t => [t]) toks = toks.
Proof. induction toks as [|t toks IH]; cbn; by rewrite ?IH. Qed.

Lemma all_hidden (hide : list string) x :
  NoDup hide ->
  (forall y, y ∈ hide -> is_Some (env !! y)) ->
  size env <= length hide ->
  is_Some (env !! x) -> x ∈ hide.
Proof.
  intros Hnd Hsub Hsize Hx.
  assert (Heq : list_to_set hide = dom env).
  { apply set_subseteq_size_eq.
    - intros y Hy. apply elem_of_dom, Hsub. by apply elem_of_list_to_set in Hy.
    - rewrite size_dom, size_list_to_set; [lia | done]. }
  apply elem_of_dom in Hx. rewrite <- Heq in Hx.
  by apply elem_of_list_to_set in Hx.
Qed.

Lemma expand_fuel fuel :
  forall hide toks,
    NoDup hide ->
    (forall y, y ∈ hide -> is_Some (env !! y)) ->
    size env <= fuel + length hide ->
    expand env (S fuel) hide toks = expand env fuel hide toks.
Proof.
  induction fuel as [|fuel IH]; intros hide toks Hnd Hsub Hsize.
  - cbn [expand]. rewrite <- (flat_map_singleton toks) at 2.
    apply flat_map_ext. intros [x| |]; try reflexivity.
    destruct (env !! x) as [body|] eqn:Hx; [|reflexivity].
    assert (Hin : x ∈ hide) by (apply all_hidden; eauto).
    apply hidden_spec in Hin. by rewrite Hin.
  - change (expand env (S (S fuel)) hide toks)
      with (flat_map (fun t => match t with
                               | TId x =>
                                   match env !! x with
                                   | Some body =>
                                       if existsb (String.eqb x) hide then [t]
                                       else expand env (S fuel) (x :: hide) body
                                   | None => [t]
                                   end
                               | _ => [t]
                               end) toks).
    cbn [expand]. apply flat_map_ext. intros [x| |]; try reflexivity.
    destruct (env !! x) as [body|] eqn:Hx; [|reflexivity].
    destruct (existsb (String.eqb x) hide) eqn:Hh; [reflexivity|].
    apply IH.
    + constructor; [|done]. intros Hin. apply hidden_spec in Hin. congruence.
    + intros y Hy. apply elem_of_cons in Hy as [->|Hy]; [by rewrite Hx | auto].
    + cbn. lia.
Qed.

(** Fuel beyond the size of the table changes nothing. *)
Lemma expand_all_fuel k toks :
  expand env (S (size env) + k) [] toks = expand_all env toks.
Proof.
  unfold expand_all. induction k as [|k IH].
  - by rewrite Nat.add_0_r.
  - rewrite <- IH. replace (S (size env) + S k) with (S (S (size env) + k)) by lia.
    apply expand_fuel; [constructor | intros y Hy; by apply elem_of_nil in Hy | cbn; lia].
Qed.
End Fuel.

(** ** The guard's controlling expression *)

Section Guard.

Variable env : macro_table.
Variable wundef : bool.

Lemma resolve_guard :
  resolve_defined env guard_cond
  = Some [bit (is_defined env FOLLY_HAS_COROUTINES); TPunct "&&";
          TId FOLLY_HAS_COROUTINES].
Proof. reflexivity. Qed.

Lemma expand_guard b :
  expand_all env [bit b; TPunct "&&"; TId FOLLY_HAS_COROUTINES]
  = bit b :: TPunct "&&" ::
    match env !! FOLLY_HAS_COROUTINES with
    | Some body => expand env (size env) [FOLLY_HAS_COROUTINES] body
    | None => [TId FOLLY_HAS_COROUTINES]
    end.
Proof.
  unfold expand_all. cbn [expand flat_map existsb app bit].
  destruct (env !! FOLLY_HAS_COROUTINES); cbn [app];
    rewrite ?app_nil_r; reflexivity.
Qed.

Lemma expand_number fuel hide s :
  expand env fuel hide [TNum s] = [TNum s].
Proof. destruct fuel; reflexivity. Qed.

(** Macro undefined: the expression is [0 && FOLLY_HAS_COROUTINES]; the
    right operand is skipped, so nothing is diagnosed and no identifier is
    evaluated. *)
Lemma guard_undefined :
  env !! FOLLY_HAS_COROUTINES = None ->
  eval_if wundef env guard_cond = Evaluation 0 [] [].
Proof.
  intros H. unfold eval_if. rewrite resolve_guard, expand_guard.
  unfold is_defined. rewrite H. destruct wundef; reflexivity.
Qed.

(** Macro defined to an integer literal of value [n]: the expression is
    [1 && n]; the only diagnostic there can be is the literal's own. *)
Lemma guard_defined_int s n :
  env !! FOLLY_HAS_COROUTINES = Some [TNum s] ->
  int_value s = Some n ->
  eval_if wundef env guard_cond
  = Evaluation (of_bool (negb (n =? 0)%N))
               (if large_unsigned s then [Diag_large_unsigned s] else [])
               [].
Proof.
  intros H Hn. unfold eval_if. rewrite resolve_guard, expand_guard.
  unfold is_defined. rewrite H, expand_number.
  cbn -[int_value large_unsigned]. rewrite Hn.
  cbn -[int_value large_unsigned].
  destruct n; reflexivity.
Qed.

Lemma macro_state_cases :
  (env !! FOLLY_HAS_COROUTINES = None
   /\ macro_state_of env FOLLY_HAS_COROUTINES = Undefined)
  \/ (exists s n, env !! FOLLY_HAS_COROUTINES = Some [TNum s]
                  /\ int_value s = Some n
                  /\ macro_state_of env FOLLY_HAS_COROUTINES = DefinedInt n)
  \/ macro_state_of env FOLLY_HAS_COROUTINES = DefinedOther.
Proof.
  unfold macro_state_of.
  destruct (env !! FOLLY_HAS_COROUTINES) as [[|[x|s|p] [|t body]]|];
    auto.
  destruct (int_value s) as [n|] eqn:Hn; [|auto].
  right; left. by exists s, n.
Qed.

(** In the three states the specification distinguishes, the guard's
    expression evaluates to the guard's decision and no identifier is
    evaluated. *)
Lemma guard_eval :
  macro_state_of env FOLLY_HAS_COROUTINES <> DefinedOther ->
  ev_value (eval_if wundef env guard_cond)
  = of_bool (guard_on (macro_state_of env FOLLY_HAS_COROUTINES))
  /\ ev_tested (eval_if wundef env guard_cond) = [].
Proof.
  intros Hwf.
  destruct macro_state_cases as [[H ->]|[(s & n & H & Hn & ->)|H]].
  - by rewrite (guard_undefined H).
  - by rewrite (guard_defined_int s n H Hn).
  - contradiction.
Qed.

(** Without the [defined] conjunct the undefined macro would be evaluated,
    and diagnosed under undefined-identifier warnings. *)
Lemma unguarded_undefined :
  env !! FOLLY_HAS_COROUTINES = None ->
  eval_if true env unguarded_cond
  = Evaluation 0 [Diag_undef FOLLY_HAS_COROUTINES] [FOLLY_HAS_COROUTINES].
Proof.
  intros H.
  assert (Hr : resolve_defined env unguarded_cond = Some unguarded_cond)
    by reflexivity.
  unfold eval_if. rewrite Hr. unfold unguarded_cond, expand_all.
  cbn [expand flat_map]. rewrite H. reflexivity.
Qed.

End Guard.

(** ** The patch as a state transformer *)

(** Whatever the state, the patch evaluates the guard once, appends the
    include when the guard holds, and puts everything else back. *)
Lemma run_patch_eq st :
  run_patch st =
  let r := eval_if (pp_wundef st) (pp_macros st) guard_cond in
  State (pp_wundef st) (pp_macros st) (pp_skipping st) (pp_if_stack st)
        (pp_output st ++
           (if truth (ev_value r) then [OInclude coroutine_header] else []))
        (pp_diags st ++ ev_diags r)
        (pp_tested st ++ ev_tested r).
Proof.
  unfold run_patch, process_file. rewrite Expected_h_directives.
  destruct st as [w m sk stk out ds ts].
  cbn -[eval_if guard_cond].
  destruct (truth _);
    unfold set_cond, report, emit, push_conditional, record_tested;
    cbn -[eval_if guard_cond]; rewrite ?app_nil_r; reflexivity.
Qed.

Lemma emitted_eq st :
  emitted st =
  if truth (ev_value (eval_if (pp_wundef st) (pp_macros st) guard_cond))
  then [OInclude coroutine_header] else [].
Proof. unfold emitted. rewrite run_patch_eq. cbn. apply drop_app_length. Qed.

Lemma diagnosed_eq st :
  diagnosed st = ev_diags (eval_if (pp_wundef st) (pp_macros st) guard_cond).
Proof. unfold diagnosed. rewrite run_patch_eq. cbn. apply drop_app_length. Qed.

Lemma tested_eq st :
  tested st = ev_tested (eval_if (pp_wundef st) (pp_macros st) guard_cond).
Proof. unfold tested. rewrite run_patch_eq. cbn. apply drop_app_length. Qed.

Lemma output_frame st : pp_output (run_patch st) = pp_output st ++ emitted st.
Proof. rewrite emitted_eq, run_patch_eq. reflexivity. Qed.

Lemma diags_frame st : pp_diags (run_patch st) = pp_diags st ++ diagnosed st.
Proof. rewrite diagnosed_eq, run_patch_eq. reflexivity. Qed.

Lemma tested_frame st : pp_tested (run_patch st) = pp_tested st ++ tested st.
Proof. rewrite tested_eq, run_patch_eq. reflexivity. Qed.

Lemma truth_of_bool b : truth (of_bool b) = b.
Proof. by destruct b. Qed.

(** The patch in the three states of the specification. *)
Lemma emitted_guard st :
  macro_state_of (pp_macros st) FOLLY_HAS_COROUTINES <> DefinedOther ->
  emitted st =
  if guard_on (macro_state_of (pp_macros st) FOLLY_HAS_COROUTINES)
  then [OInclude coroutine_header] else [].
Proof.
  intros H. rewrite emitted_eq.
  destruct (guard_eval (pp_macros st) (pp_wundef st) H) as [-> _].
  by rewrite truth_of_bool.
Qed.

Lemma tested_guard st :
  macro_state_of (pp_macros st) FOLLY_HAS_COROUTINES <> DefinedOther ->
  tested st = [].
Proof.
  intros H. rewrite tested_eq.
  by destruct (guard_eval (pp_macros st) (pp_wundef st) H) as [_ ->].
Qed.

Lemma guard_on_spec m :
  guard_on m = true <-> exists n, m = DefinedInt n /\ n <> 0%N.
Proof.
  split.
  - destruct m as [|n|]; cbn; try discriminate.
    intros H. exists n. split; [done|]. intros ->. discriminate.
  - intros (n & -> & Hn). cbn. by destruct n.
Qed.

(** A file without [#define] and [#undef] hands the symbol table back as it
    got it, and never touches the warning setting or the includer's
    conditional state. *)
Lemma process_file_macros st lines :
  forallb (fun d => negb (changes_macros d)) (parse_file lines) = true ->
  pp_macros (process_file st lines) = pp_macros st.
Proof.
  intros H. unfold process_file.
  destruct (pp_if_stack (run _ _)); cbn; by rewrite run_macros.
Qed.

Lemma process_file_cond st lines :
  pp_wundef (process_file st lines) = pp_wundef st
  /\ pp_skipping (process_file st lines) = pp_skipping st
  /\ pp_if_stack (process_file st lines) = pp_if_stack st.
Proof.
  unfold process_file.
  destruct (pp_if_stack (run _ _)); cbn; by rewrite run_wundef.
Qed.

Lemma inclusions_app a b : inclusions (a ++ b) = inclusions a + inclusions b.
Proof. unfold inclusions. by rewrite filter_app, length_app. Qed.

Lemma emitted_cases st :
  emitted st = [] \/ emitted st = [OInclude coroutine_header].
Proof. rewrite emitted_eq. destruct (truth _); auto. Qed.

(** ** The claims *)

(** C1: in each of the three states of the feature macro (undefined, defined
    to zero, defined to a nonzero integer constant) the coroutine header is
    included if and only if the macro is defined and its value is nonzero,
    and in every other such state the output is left exactly as it was. *)
Theorem guard_includes_iff_defined_nonzero st :
  macro_state_of (pp_macros st) FOLLY_HAS_COROUTINES <> DefinedOther ->
  (pp_output (run_patch st) = pp_output st ++ [OInclude coroutine_header]
   <-> exists n, macro_state_of (pp_macros st) FOLLY_HAS_COROUTINES = DefinedInt n
                 /\ n <> 0%N)
  /\ (pp_output (run_patch st) = pp_output st
      <-> ~ exists n, macro_state_of (pp_macros st) FOLLY_HAS_COROUTINES = DefinedInt n
                      /\ n <> 0%N).
Proof.
  intros Hwf. rewrite output_frame, emitted_guard by done.
  rewrite <- guard_on_spec.
  destruct (guard_on _); split; split; intros H; try done.
  - apply (f_equal length) in H. rewrite length_app in H. cbn in H. lia.
  - apply app_inv_head in H. discriminate.
  - by rewrite app_nil_r.
Qed.

Lemma guard_includes_iff_defined_nonzero_witness :
  macro_state_of (pp_macros st_one) FOLLY_HAS_COROUTINES <> DefinedOther
  /\ (pp_output (run_patch st_one)
      = pp_output st_one ++ [OInclude coroutine_header]
      <-> exists n, macro_state_of (pp_macros st_one) FOLLY_HAS_COROUTINES
                    = DefinedInt n /\ n <> 0%N)
  /\ (pp_output (run_patch st_one) = pp_output st_one
      <-> ~ exists n, macro_state_of (pp_macros st_one) FOLLY_HAS_COROUTINES
                      = DefinedInt n /\ n <> 0%N).
Proof.
  split.
  - vm_compute. discriminate.
  - apply (guard_includes_iff_defined_nonzero st_one). vm_compute. discriminate.
Defined.

(** C2: with the feature macro undefined the guard is false, the include is
    omitted, no diagnostic is raised whatever the warning setting, and the
    value test on the macro is never evaluated: the [defined] conjunct is 0
    and the right operand of [&&] is skipped. *)
Theorem undefined_macro_short_circuits st :
  pp_macros st !! FOLLY_HAS_COROUTINES = None ->
  (exists toks,
      resolve_defined (pp_macros st) guard_cond = Some toks
      /\ parse_expr (expand_all (pp_macros st) toks)
         = Some (EAnd (ENum "0") (EId FOLLY_HAS_COROUTINES)))
  /\ eval_if (pp_wundef st) (pp_macros st) guard_cond = Evaluation 0 [] []
  /\ pp_diags (run_patch st) = pp_diags st
  /\ pp_output (run_patch st) = pp_output st
  /\ pp_tested (run_patch st) = pp_tested st.
Proof.
  intros H. split.
  - eexists. split; [apply resolve_guard|].
    rewrite expand_guard. unfold is_defined. by rewrite H.
  - rewrite run_patch_eq, (guard_undefined _ _ H).
    cbn. by rewrite !app_nil_r.
Qed.

Lemma undefined_macro_short_circuits_witness :
  pp_macros st_undefined !! FOLLY_HAS_COROUTINES = None
  /\ (exists toks,
         resolve_defined (pp_macros st_undefined) guard_cond = Some toks
         /\ parse_expr (expand_all (pp_macros st_undefined) toks)
            = Some (EAnd (ENum "0") (EId FOLLY_HAS_COROUTINES)))
  /\ eval_if (pp_wundef st_undefined) (pp_macros st_undefined) guard_cond
     = Evaluation 0 [] []
  /\ pp_diags (run_patch st_undefined) = pp_diags st_undefined
  /\ pp_output (run_patch st_undefined) = pp_output st_undefined
  /\ pp_tested (run_patch st_undefined) = pp_tested st_undefined.
Proof.
  split.
  - vm_compute. reflexivity.
  - apply (undefined_macro_short_circuits st_undefined). vm_compute. reflexivity.
Defined.

(** C3: the guard turns the three states into a yes/no decision: a state
    where the macro is defined to 0 and a state where it is undefined give
    the same (empty) result, and the include appears only when the macro is
    defined to a nonzero value. *)
Theorem guard_collapses_tristate st0 stU st :
  macro_state_of (pp_macros st0) FOLLY_HAS_COROUTINES = DefinedInt 0 ->
  macro_state_of (pp_macros stU) FOLLY_HAS_COROUTINES = Undefined ->
  macro_state_of (pp_macros st) FOLLY_HAS_COROUTINES <> DefinedOther ->
  emitted st0 = emitted stU
  /\ emitted stU = []
  /\ emitted st
     = (if guard_on (macro_state_of (pp_macros st) FOLLY_HAS_COROUTINES)
        then [OInclude coroutine_header] else [])
  /\ (emitted st <> []
      <-> exists n, macro_state_of (pp_macros st) FOLLY_HAS_COROUTINES = DefinedInt n
                    /\ n <> 0%N).
Proof.
  intros H0 HU Hwf.
  rewrite (emitted_guard st0), (emitted_guard stU), (emitted_guard st)
    by (done || by rewrite ?H0, ?HU).
  rewrite H0, HU, <- guard_on_spec. cbn.
  repeat split; try done; destruct (guard_on _); done.
Qed.

Lemma guard_collapses_tristate_witness :
  macro_state_of (pp_macros st_zero) FOLLY_HAS_COROUTINES = DefinedInt 0
  /\ macro_state_of (pp_macros st_undefined) FOLLY_HAS_COROUTINES = Undefined
  /\ macro_state_of (pp_macros st_hex) FOLLY_HAS_COROUTINES <> DefinedOther
  /\ emitted st_zero = emitted st_undefined
  /\ emitted st_undefined = []
  /\ emitted st_hex
     = (if guard_on (macro_state_of (pp_macros st_hex) FOLLY_HAS_COROUTINES)
        then [OInclude coroutine_header] else [])
  /\ (emitted st_hex <> []
      <-> exists n, macro_state_of (pp_macros st_hex) FOLLY_HAS_COROUTINES
                    = DefinedInt n /\ n <> 0%N).
Proof.
  split; [vm_compute; reflexivity|].
  split; [vm_compute; reflexivity|].
  split; [vm_compute; discriminate|].
  apply (guard_collapses_tristate st_zero st_undefined st_hex).
  - vm_compute. reflexivity.
  - vm_compute. reflexivity.
  - vm_compute. discriminate.
Defined.

(** C4: whenever the feature macro is defined to an integer literal of
    nonzero value (1 or any other), the guard appends the include of the
    coroutine header, so every symbol that header declares is visible in
    the output. *)
Theorem nonzero_literal_includes_header
        (declares : header_ref -> list string) st s n sym :
  pp_macros st !! FOLLY_HAS_COROUTINES = Some [TNum s] ->
  int_value s = Some n ->
  n <> 0%N ->
  In sym (declares coroutine_header) ->
  pp_output (run_patch st) = pp_output st ++ [OInclude coroutine_header]
  /\ visible declares (pp_output (run_patch st)) sym.
Proof.
  intros H Hs Hn Hsym.
  assert (Hout : pp_output (run_patch st)
                 = pp_output st ++ [OInclude coroutine_header]).
  { rewrite run_patch_eq, (guard_defined_int _ _ s n H Hs). cbn.
    by destruct n. }
  split; [done|]. exists coroutine_header. split; [|done].
  rewrite Hout. apply in_or_app. right. by left.
Qed.

Lemma nonzero_literal_includes_header_witness :
  pp_macros st_hex !! FOLLY_HAS_COROUTINES = Some [TNum "0x10"]
  /\ int_value "0x10" = Some 16%N
  /\ 16%N <> 0%N
  /\ In "coroutine_handle" (sample_declares coroutine_header)
  /\ pp_output (run_patch st_hex)
     = pp_output st_hex ++ [OInclude coroutine_header]
  /\ visible sample_declares (pp_output (run_patch st_hex)) "coroutine_handle".
Proof.
  split; [vm_compute; reflexivity|].
  split; [vm_compute; reflexivity|].
  split; [discriminate|].
  split; [left; reflexivity|].
  apply (nonzero_literal_includes_header sample_declares st_hex "0x10" 16).
  - vm_compute. reflexivity.
  - vm_compute. reflexivity.
  - discriminate.
  - left. reflexivity.
Defined.

(** C5: in every state, processing the patch leaves the symbol table as it
    was: the file holds no [#define] and no [#undef]; the warning setting and
    the includer's conditional state are handed back unchanged, and the only
    thing added to the output is the include, or nothing. *)
Theorem patch_preserves_symbol_table st :
  pp_macros (run_patch st) = pp_macros st
  /\ forallb (fun d => negb (changes_macros d)) (parse_file Expected_h) = true
  /\ pp_wundef (run_patch st) = pp_wundef st
  /\ pp_skipping (run_patch st) = pp_skipping st
  /\ pp_if_stack (run_patch st) = pp_if_stack st
  /\ (emitted st = [] \/ emitted st = [OInclude coroutine_header]).
Proof.
  assert (Hfree : forallb (fun d => negb (changes_macros d))
                          (parse_file Expected_h) = true) by reflexivity.
  split; [by apply process_file_macros|].
  split; [done|].
  destruct (process_file_cond st Expected_h) as (Hw & Hs & Hi).
  repeat split; try done. apply emitted_cases.
Qed.

(** C6: in every state the patch adds to the output either nothing or
    exactly one inclusion of the coroutine header, never more. *)
Theorem at_most_one_inclusion st :
  pp_output (run_patch st) = pp_output st ++ emitted st
  /\ (emitted st = [] \/ emitted st = [OInclude coroutine_header])
  /\ inclusions (emitted st) <= 1
  /\ inclusions (pp_output (run_patch st)) <= S (inclusions (pp_output st)).
Proof.
  split; [apply output_frame|]. split; [apply emitted_cases|].
  assert (H : inclusions (emitted st) <= 1).
  { destruct (emitted_cases st) as [-> | ->]; vm_compute; lia. }
  split; [done|]. rewrite output_frame, inclusions_app. lia.
Qed.

(** C7: with the feature macro undefined, defined to 0, or defined to 1, the
    patch adds no diagnostic to those the translation unit already has. *)
Theorem no_diagnostic_in_three_configurations st :
  pp_macros st !! FOLLY_HAS_COROUTINES = None
  \/ pp_macros st !! FOLLY_HAS_COROUTINES = Some [TNum "0"]
  \/ pp_macros st !! FOLLY_HAS_COROUTINES = Some [TNum "1"] ->
  pp_diags (run_patch st) = pp_diags st /\ diagnosed st = [].
Proof.
  intros H.
  assert (Hd : diagnosed st = []).
  { rewrite diagnosed_eq. destruct H as [H|[H|H]].
    - by rewrite (guard_undefined _ _ H).
    - by rewrite (guard_defined_int _ _ "0" 0 H).
    - by rewrite (guard_defined_int _ _ "1" 1 H). }
  split; [|done]. by rewrite diags_frame, Hd, app_nil_r.
Qed.

Lemma no_diagnostic_in_three_configurations_witness :
  (pp_macros st_one !! FOLLY_HAS_COROUTINES = None
   \/ pp_macros st_one !! FOLLY_HAS_COROUTINES = Some [TNum "0"]
   \/ pp_macros st_one !! FOLLY_HAS_COROUTINES = Some [TNum "1"])
  /\ pp_diags (run_patch st_one) = pp_diags st_one
  /\ diagnosed st_one = [].
Proof.
  split.
  - right. right. vm_compute. reflexivity.
  - apply (no_diagnostic_in_three_configurations st_one).
    right. right. vm_compute. reflexivity.
Defined.

(** C8: two states that agree on whether the feature macro is defined and
    on its integer value get the same output from the patch, whatever else
    differs between them (the spelling of the value, other macros, warning
    setting, conditional nesting, earlier output). *)
Theorem output_depends_only_on_feature_macro st1 st2 :
  macro_state_of (pp_macros st1) FOLLY_HAS_COROUTINES
  = macro_state_of (pp_macros st2) FOLLY_HAS_COROUTINES ->
  macro_state_of (pp_macros st1) FOLLY_HAS_COROUTINES <> DefinedOther ->
  emitted st1 = emitted st2.
Proof.
  intros Heq Hwf.
  assert (Hwf2 : macro_state_of (pp_macros st2) FOLLY_HAS_COROUTINES
                 <> DefinedOther) by (by rewrite <- Heq).
  rewrite !emitted_guard by done.
  by rewrite Heq.
Qed.

Lemma output_depends_only_on_feature_macro_witness :
  macro_state_of (pp_macros st_one) FOLLY_HAS_COROUTINES
  = macro_state_of (pp_macros st_one_elsewhere) FOLLY_HAS_COROUTINES
  /\ macro_state_of (pp_macros st_one) FOLLY_HAS_COROUTINES <> DefinedOther
  /\ emitted st_one = emitted st_one_elsewhere.
Proof.
  split; [vm_compute; reflexivity|].
  split; [vm_compute; discriminate|].
  apply (output_depends_only_on_feature_macro st_one st_one_elsewhere).
  - vm_compute. reflexivity.
  - vm_compute. discriminate.
Defined.

(** C9: any include the patch emits names the one fixed path
    folly/coro/Coroutine.h, in angle brackets, relative and inside the
    library's coro directory, whatever the state. *)
Theorem include_path_is_fixed st h :
  In (OInclude h) (emitted st) ->
  h = HAngle "folly/coro/Coroutine.h"
  /\ exists file, h = HAngle ("folly/coro/" ++ file).
Proof.
  intros H.
  assert (Hh : h = coroutine_header).
  { destruct (emitted_cases st) as [E|E]; rewrite E in H.
    - destruct H.
    - destruct H as [H|[]]. by injection H. }
  subst h. split; [reflexivity|]. by exists "Coroutine.h".
Qed.

Lemma include_path_is_fixed_witness :
  In (OInclude coroutine_header) (emitted st_hex)
  /\ coroutine_header = HAngle "folly/coro/Coroutine.h"
  /\ exists file, coroutine_header = HAngle ("folly/coro/" ++ file).
Proof.
  split.
  - vm_compute. left. reflexivity.
  - apply (include_path_is_fixed st_hex coroutine_header).
    vm_compute. left. reflexivity.
Defined.

(** C10: when the guard is off (macro undefined or defined to 0) the patch
    adds nothing at all to the output, neither program text nor an
    inclusion: the file consists of comment lines and a blank line, which
    carry no token, and of one conditional group, which is skipped. *)
Theorem guard_off_contributes_nothing st :
  macro_state_of (pp_macros st) FOLLY_HAS_COROUTINES = Undefined
  \/ macro_state_of (pp_macros st) FOLLY_HAS_COROUTINES = DefinedInt 0 ->
  emitted st = []
  /\ pp_output (run_patch st) = pp_output st
  /\ text_tokens (emitted st) = 0
  /\ inclusions (emitted st) = 0
  /\ parse_file Expected_h
     = [Text []; Text []; Text []; If guard_cond;
        Include coroutine_header []; Endif []]
  /\ pp_skipping (run (set_cond st false []) (take 4 (parse_file Expected_h)))
     = true.
Proof.
  intros H.
  assert (Hwf : macro_state_of (pp_macros st) FOLLY_HAS_COROUTINES
                <> DefinedOther) by (destruct H as [-> | ->]; discriminate).
  assert (Hoff : guard_on (macro_state_of (pp_macros st) FOLLY_HAS_COROUTINES)
                 = false) by (destruct H as [-> | ->]; reflexivity).
  assert (He : emitted st = []) by (by rewrite emitted_guard, Hoff).
  split; [done|].
  split; [by rewrite output_frame, He, app_nil_r|].
  rewrite He. repeat split.
  rewrite Expected_h_directives. destruct st as [w m sk stk out ds ts].
  cbn -[eval_if guard_cond]. cbn in Hwf, Hoff.
  destruct (guard_eval m w Hwf) as [-> _]. by rewrite Hoff.
Qed.

Lemma guard_off_contributes_nothing_witness :
  (macro_state_of (pp_macros st_zero) FOLLY_HAS_COROUTINES = Undefined
   \/ macro_state_of (pp_macros st_zero) FOLLY_HAS_COROUTINES = DefinedInt 0)
  /\ emitted st_zero = []
  /\ pp_output (run_patch st_zero) = pp_output st_zero
  /\ text_tokens (emitted st_zero) = 0
  /\ inclusions (emitted st_zero) = 0
  /\ parse_file Expected_h
     = [Text []; Text []; Text []; If guard_cond;
        Include coroutine_header []; Endif []]
  /\ pp_skipping (run (set_cond st_zero false [])
                      (take 4 (parse_file Expected_h))) = true.
Proof.
  split.
  - right. vm_compute. reflexivity.
  - apply (guard_off_contributes_nothing st_zero).
    right. vm_compute. reflexivity.
Defined.

(** * Beyond the three states *)

(** ** Where the patch's diagnostics come from *)

Lemma eval_diags_class e :
  forall w s,
    forallb (fun d => negb (structural_diag d)) (ev_diags (eval w s e)) = true.
Proof.
  induction e as [x|x|a IH|a IHa b IHb|a IHa b IHb]; intros w s; cbn.
  - destruct (int_value x); [|reflexivity]. by destruct (large_unsigned x).
  - unfold eval_id. by repeat case_match.
  - apply IH.
  - by rewrite forallb_app, IHa, IHb.
  - by rewrite forallb_app, IHa, IHb.
Qed.

(** X8: in every state the diagnostics the patch adds are exactly those
    raised by evaluating the controlling expression of line 4, once: the
    other lines add none and the conditional is closed within the file, so
    no diagnostic about the directives themselves (conditional unbalanced
    or left open, extra tokens, invalid directive, missing macro name) is
    ever added. *)
Theorem only_expression_diagnostics st :
  diagnosed st = ev_diags (eval_if (pp_wundef st) (pp_macros st) guard_cond)
  /\ Forall (fun d => structural_diag d = false) (diagnosed st).
Proof.
  split; [apply diagnosed_eq|].
  assert (H : forallb (fun d => negb (structural_diag d)) (diagnosed st) = true).
  { rewrite diagnosed_eq. unfold eval_if. rewrite resolve_guard.
    case_match; [apply eval_diags_class | reflexivity]. }
  rewrite forallb_forall in H. apply List.Forall_forall.
  intros d Hd. apply H in Hd. by destruct (structural_diag d).
Qed.

(** ** Particular replacement lists *)

(** With the macro defined, the tokens the guard's expression is parsed
    from are [1 &&] followed by the macro's expanded replacement list. *)
Lemma eval_if_defined w (env : macro_table) body :
  env !! FOLLY_HAS_COROUTINES = Some body ->
  eval_if w env guard_cond
  = match parse_expr (TNum "1" :: TPunct "&&"
                        :: expand env (size env) [FOLLY_HAS_COROUTINES] body) with
    | Some e => eval w false e
    | None => Evaluation 0 [Diag_bad_expr] []
    end.
Proof.
  intros H. unfold eval_if. rewrite resolve_guard, expand_guard.
  unfold is_defined. by rewrite H.
Qed.

Lemma size_pos (env : macro_table) x body :
  env !! x = Some body -> exists f, size env = S f.
Proof.
  intros H. destruct (size env) as [|f] eqn:E; [|by exists f].
  apply map_size_empty_inv in E. subst. by rewrite lookup_empty in H.
Qed.

(** X2: a feature macro defined with an empty replacement list leaves the
    guard as [1 &&], which is not an expression: the include is omitted
    and exactly one diagnostic is raised. *)
Theorem empty_definition_is_diagnosed st :
  pp_macros st !! FOLLY_HAS_COROUTINES = Some [] ->
  pp_output (run_patch st) = pp_output st
  /\ pp_diags (run_patch st) = pp_diags st ++ [Diag_bad_expr].
Proof.
  intros H. rewrite run_patch_eq, (eval_if_defined _ _ [] H).
  assert (E : expand (pp_macros st) (size (pp_macros st))
                     [FOLLY_HAS_COROUTINES] [] = [])
    by (by destruct (size _)).
  rewrite E. cbn. by rewrite app_nil_r.
Qed.

(** X3: a feature macro defined as the name of another macro whose
    replacement list is an integer literal is followed through: the include
    is emitted iff that literal is nonzero. *)
Theorem indirect_definition_is_followed st y s n :
  y <> FOLLY_HAS_COROUTINES ->
  pp_macros st !! FOLLY_HAS_COROUTINES = Some [TId y] ->
  pp_macros st !! y = Some [TNum s] ->
  int_value s = Some n ->
  emitted st = (if (n =? 0)%N then [] else [OInclude coroutine_header]).
Proof.
  intros Hy H Hb Hs.
  rewrite emitted_eq, (eval_if_defined _ _ _ H).
  destruct (size_pos _ _ _ H) as [f ->].
  cbn [expand flat_map existsb]. rewrite Hb.
  apply String.eqb_neq in Hy. rewrite Hy. cbn [orb].
  rewrite expand_number. cbn -[int_value large_unsigned]. rewrite Hs.
  cbn -[int_value large_unsigned]. by destruct n.
Qed.

Lemma ordinary_not_reserved y w :
  ordinary_identifier y = true -> In w reserved_words -> String.eqb y w = false.
Proof.
  intros Hy Hw. destruct y as [|c rest]; [discriminate|].
  cbn [ordinary_identifier] in Hy.
  apply andb_prop in Hy as [_ Hy]. apply negb_true_iff in Hy.
  destruct (String.eqb (String c rest) w) eqn:E; [|done].
  assert (Hex : existsb (String.eqb (String c rest)) reserved_words = true).
  { apply existsb_exists. by exists w. }
  congruence.
Qed.

(** X4: a feature macro defined as an ordinary identifier that is not a
    macro (or as its own name) counts as defined to 0: the include is
    omitted, the name is evaluated, and it is diagnosed when
    undefined-identifier warnings are on.  The [defined] conjunct does not
    cover this case. *)
Theorem unknown_identifier_definition st y :
  ordinary_identifier y = true ->
  y = FOLLY_HAS_COROUTINES \/ pp_macros st !! y = None ->
  pp_macros st !! FOLLY_HAS_COROUTINES = Some [TId y] ->
  emitted st = []
  /\ diagnosed st = (if pp_wundef st then [Diag_undef y] else [])
  /\ tested st = [y].
Proof.
  intros Hord Hy H.
  rewrite emitted_eq, diagnosed_eq, tested_eq, (eval_if_defined _ _ _ H).
  destruct (size_pos _ _ _ H) as [f ->].
  assert (E : expand (pp_macros st) (S f) [FOLLY_HAS_COROUTINES] [TId y]
              = [TId y]).
  { cbn [expand flat_map existsb]. destruct Hy as [-> | Hn].
    - rewrite H, String.eqb_refl. reflexivity.
    - rewrite Hn. reflexivity. }
  rewrite E.
  assert (Ht : String.eqb y "true" = false)
    by (apply ordinary_not_reserved; [done | cbn; tauto]).
  assert (Hf : String.eqb y "false" = false)
    by (apply ordinary_not_reserved; [done | cbn; tauto]).
  cbn. unfold eval_id. rewrite Ht, Hf. cbn.
  by destruct (pp_wundef st).
Qed.

(** X5: a feature macro defined as the keyword true turns the include on,
    defined as the keyword false turns it off, in both cases without a
    diagnostic and without evaluating an undefined identifier. *)
Theorem boolean_keyword_definition st (b : bool) :
  pp_macros st !! (if b then "true" else "false") = None ->
  pp_macros st !! FOLLY_HAS_COROUTINES
  = Some [TId (if b then "true" else "false")] ->
  emitted st = (if b then [OInclude coroutine_header] else [])
  /\ diagnosed st = []
  /\ tested st = [].
Proof.
  intros Hn H.
  rewrite emitted_eq, diagnosed_eq, tested_eq, (eval_if_defined _ _ _ H).
  destruct (size_pos _ _ _ H) as [f ->].
  cbn [expand flat_map existsb]. rewrite Hn.
  by destruct b.
Qed.

(** X6: the file has no include guard of its own: processed twice with the
    feature macro defined to a nonzero literal, it emits the include twice. *)
Theorem repeated_inclusion_repeats_include st s n :
  pp_macros st !! FOLLY_HAS_COROUTINES = Some [TNum s] ->
  int_value s = Some n ->
  n <> 0%N ->
  pp_output (run_patch (run_patch st))
  = pp_output st ++ [OInclude coroutine_header; OInclude coroutine_header].
Proof.
  intros H Hs Hn.
  assert (E : forall st', pp_macros st' !! FOLLY_HAS_COROUTINES = Some [TNum s] ->
                          pp_output (run_patch st')
                          = pp_output st' ++ [OInclude coroutine_header]).
  { intros st' H'. rewrite run_patch_eq, (guard_defined_int _ _ s n H' Hs).
    cbn. by destruct n. }
  assert (H' : pp_macros (run_patch st) !! FOLLY_HAS_COROUTINES = Some [TNum s])
    by (by rewrite run_patch_eq).
  by rewrite (E _ H'), (E _ H), <- app_assoc.
Qed.

(** ** The [defined] conjunct changes nothing once the macro is defined *)

Lemma parse_loop_nil xs ops need :
  parse_loop [] xs ops need = parser_finish xs ops need.
Proof. reflexivity. Qed.

Lemma parse_loop_cons t rest xs ops need :
  parse_loop (t :: rest) xs ops need
  = match parser_step t xs ops need with
    | Some (xs', ops', need') => parse_loop rest xs' ops' need'
    | None => None
    end.
Proof.
  unfold parser_step. cbn [parse_loop].
  destruct need, t; repeat case_match; reflexivity.
Qed.

Lemma eqv_refl e : eqv e e.
Proof. by intros w s. Qed.

Lemma eqv_not e e' : eqv e e' -> eqv (ENot e) (ENot e').
Proof.
  intros H w s. destruct (H w s) as (Hv & Hd & Ht). cbn.
  by rewrite Hv, Hd, Ht.
Qed.

Lemma eqv_and l l' r r' : eqv l l' -> eqv r r' -> eqv (EAnd l r) (EAnd l' r').
Proof.
  intros Hl Hr w s. destruct (Hl w s) as (Hv & Hd & Ht). cbn.
  rewrite <- Hv.
  destruct (Hr w (s || negb (truth (ev_value (eval w s l)))))
    as (Hv' & Hd' & Ht').
  by rewrite Hv', Hd, Ht, Hd', Ht'.
Qed.

Lemma eqv_or l l' r r' : eqv l l' -> eqv r r' -> eqv (EOr l r) (EOr l' r').
Proof.
  intros Hl Hr w s. destruct (Hl w s) as (Hv & Hd & Ht). cbn.
  rewrite <- Hv.
  destruct (Hr w (s || truth (ev_value (eval w s l)))) as (Hv' & Hd' & Ht').
  by rewrite Hv', Hd, Ht, Hd', Ht'.
Qed.

(** Conjoining a literal 1 on the left changes nothing but the value's
    normalisation to 0 or 1. *)
Lemma eqv_one_and e : eqv e (EAnd (ENum "1") e).
Proof.
  intros w s. cbn. rewrite orb_false_r, truth_of_bool. by destruct (eval w s e).
Qed.

Lemma apply_op_merged o xs xs' :
  Forall2 eqv xs xs' ->
  option_Forall2 (Forall2 eqv) (apply_op o xs) (apply_op o xs').
Proof.
  intros H. destruct H as [|x x' xs xs' Hx [|y y' ys ys' Hy Hys]];
    destruct o; cbn; constructor;
    repeat (constructor; auto using eqv_not, eqv_and, eqv_or).
Qed.

Lemma reduce_merged p ops :
  forall xs xs',
    Forall2 eqv xs xs' ->
    option_Forall2 (fun a b => a.1 = b.1 /\ Forall2 eqv a.2 b.2)
                   (reduce_while p ops xs) (reduce_while p ops xs').
Proof.
  induction ops as [|o ops IH]; intros xs xs' H; cbn.
  - by constructor.
  - destruct (p o); [|by constructor].
    destruct (apply_op_merged o xs xs' H) as [ys ys' Hys|]; [|constructor].
    by apply IH.
Qed.

(** Reducing a balanced pair of stacks always succeeds and keeps the
    balance; with [1 &&] underneath, the reduction either stops above it or
    reaches it with exactly one operand left. *)
Lemma reduce_bottom p ops :
  p OpParen = false ->
  forall xs,
    length xs = S (binary_ops ops) ->
    exists ops_r xs_r,
      reduce_while p ops xs = Some (ops_r, xs_r)
      /\ length xs_r = S (binary_ops ops_r)
      /\ ((ops_r = [] /\ p OpAnd = true
           /\ exists x, xs_r = [x]
                        /\ reduce_while p (ops ++ [OpAnd]) (xs ++ [ENum "1"])
                           = Some ([], [EAnd (ENum "1") x]))
          \/ ((ops_r <> [] \/ p OpAnd = false)
              /\ reduce_while p (ops ++ [OpAnd]) (xs ++ [ENum "1"])
                 = Some (ops_r ++ [OpAnd], xs_r ++ [ENum "1"]))).
Proof.
  intros Hparen. induction ops as [|o ops IH]; intros xs Hlen.
  - destruct xs as [|x [|y xs]]; try discriminate Hlen.
    exists [], [x]. cbn. split; [done|]. split; [done|].
    destruct (p OpAnd) eqn:Hp.
    + left. repeat split. by exists x.
    + right. split; [by right | done].
  - cbn [reduce_while app]. destruct (p o) eqn:Hp.
    + destruct o; cbn in Hlen.
      * destruct xs as [|e xs]; [discriminate|].
        apply (IH (ENot e :: xs)). by cbn.
      * destruct xs as [|r [|l xs]]; try discriminate.
        apply (IH (EAnd l r :: xs)). cbn in *. lia.
      * destruct xs as [|r [|l xs]]; try discriminate.
        apply (IH (EOr l r :: xs)). cbn in *. lia.
      * congruence.
    + exists (o :: ops), xs. split; [done|]. split; [done|].
      right. split; [by left | done].
Qed.

Lemma sim_step t xs ops need xs' ops' :
  sim (xs, ops, need) (xs', ops', need) ->
  option_Forall2 sim (parser_step t xs ops need) (parser_step t xs' ops' need).
Proof.
  intros H. inversion H as [? ? ? Hbal | ? ? ? ? Heqv]; subst.
  - (* the 1 && is still at the bottom *)
    unfold balanced in Hbal. unfold parser_step.
    destruct need.
    + destruct t as [x|s|p].
      * destruct (reduce_bottom is_not ops eq_refl (EId x :: xs))
          as (ops_r & xs_r & -> & Hlen & [(_ & Hp & _)|(_ & HB)]);
          [cbn; lia | discriminate |].
        cbn [app] in HB |- *. rewrite HB. constructor. constructor.
        unfold balanced. lia.
      * destruct (reduce_bottom is_not ops eq_refl (ENum s :: xs))
          as (ops_r & xs_r & -> & Hlen & [(_ & Hp & _)|(_ & HB)]);
          [cbn; lia | discriminate |].
        cbn [app] in HB |- *. rewrite HB. constructor. constructor.
        unfold balanced. lia.
      * destruct (String.eqb p "!").
        { constructor. apply (sim_bottom xs (OpNot :: ops) true).
          unfold balanced. cbn. lia. }
        destruct (String.eqb p "("); [|constructor].
        constructor. apply (sim_bottom xs (OpParen :: ops) true).
        unfold balanced. cbn. lia.
    + destruct t as [x|s|p]; try constructor.
      destruct (String.eqb p "&&").
      { destruct (reduce_bottom is_and ops eq_refl xs)
          as (ops_r & xs_r & -> & Hlen
              & [(-> & _ & x & -> & HB)|(_ & HB)]); [lia | |];
          rewrite HB; constructor.
        - apply sim_merged. constructor; [apply eqv_one_and | constructor].
        - apply (sim_bottom xs_r (OpAnd :: ops_r) true).
          unfold balanced. cbn. lia. }
      destruct (String.eqb p "||").
      { destruct (reduce_bottom is_and_or ops eq_refl xs)
          as (ops_r & xs_r & -> & Hlen
              & [(-> & _ & x & -> & HB)|(_ & HB)]); [lia | |];
          rewrite HB; constructor.
        - apply sim_merged. constructor; [apply eqv_one_and | constructor].
        - apply (sim_bottom xs_r (OpOr :: ops_r) true).
          unfold balanced. cbn. lia. }
      destruct (String.eqb p ")"); [|constructor].
      destruct (reduce_bottom not_paren ops eq_refl xs)
        as (ops_r & xs_r & -> & Hlen
            & [(-> & _ & x & -> & HB)|(_ & HB)]); [lia | |];
        rewrite HB; [constructor|].
      destruct ops_r as [|[] ops_r]; cbn [app]; try constructor.
      destruct (reduce_bottom is_not ops_r eq_refl xs_r)
        as (ops_q & xs_q & -> & Hlen' & [(_ & Hp & _)|(_ & HB')]);
        [cbn in Hlen; lia | discriminate |].
      rewrite HB'. constructor. constructor. unfold balanced. lia.
  - (* the 1 && has been reduced into an operand *)
    unfold parser_step. destruct need.
    + destruct t as [x|s|p].
      * destruct (reduce_merged is_not ops' (EId x :: xs) (EId x :: xs'))
          as [[o1 y1] [o2 y2] [Ho Hy]|];
          [constructor; [apply eqv_refl | done] | | constructor].
        cbn in Ho, Hy. subst. constructor. by apply sim_merged.
      * destruct (reduce_merged is_not ops' (ENum s :: xs) (ENum s :: xs'))
          as [[o1 y1] [o2 y2] [Ho Hy]|];
          [constructor; [apply eqv_refl | done] | | constructor].
        cbn in Ho, Hy. subst. constructor. by apply sim_merged.
      * repeat case_match; constructor; by apply sim_merged.
    + destruct t as [x|s|p]; try constructor.
      destruct (String.eqb p "&&").
      { destruct (reduce_merged is_and ops' xs xs' Heqv)
          as [[o1 y1] [o2 y2] [Ho Hy]|]; [|constructor].
        cbn in Ho, Hy. subst. constructor. by apply sim_merged. }
      destruct (String.eqb p "||").
      { destruct (reduce_merged is_and_or ops' xs xs' Heqv)
          as [[o1 y1] [o2 y2] [Ho Hy]|]; [|constructor].
        cbn in Ho, Hy. subst. constructor. by apply sim_merged. }
      destruct (String.eqb p ")"); [|constructor].
      destruct (reduce_merged not_paren ops' xs xs' Heqv)
        as [[o1 y1] [o2 y2] [Ho Hy]|]; [|constructor].
      cbn in Ho, Hy. subst. destruct o2 as [|[] o2]; try constructor.
      destruct (reduce_merged is_not o2 y1 y2 Hy)
        as [[o3 z1] [o4 z2] [Ho Hz]|]; [|constructor].
      cbn in Ho, Hz. subst. constructor. by apply sim_merged.
Qed.

Lemma sim_finish xs ops need xs' ops' :
  sim (xs, ops, need) (xs', ops', need) ->
  option_Forall2 eqv (parser_finish xs ops need) (parser_finish xs' ops' need).
Proof.
  intros H. inversion H as [? ? ? Hbal | ? ? ? ? Heqv]; subst;
    unfold parser_finish; destruct need; try constructor.
  - unfold balanced in Hbal.
    destruct (reduce_bottom not_paren ops eq_refl xs)
      as (ops_r & xs_r & -> & Hlen
          & [(-> & _ & x & -> & HB)|([Hne|Hp] & HB)]);
      [lia | | | discriminate]; rewrite HB.
    + constructor. apply eqv_one_and.
    + destruct ops_r; [done|]. cbn. constructor.
  - destruct (reduce_merged not_paren ops' xs xs' Heqv)
      as [[o1 y1] [o2 y2] [Ho Hy]|]; [|constructor].
    cbn in Ho, Hy. subst. destruct o2; [|constructor].
    destruct Hy as [|e e' ? ? He [|]]; constructor. done.
Qed.

Lemma sim_need a b : sim a b -> a.2 = b.2.
Proof. by intros []. Qed.

Lemma sim_parse toks :
  forall xs ops need xs' ops',
    sim (xs, ops, need) (xs', ops', need) ->
    option_Forall2 eqv (parse_loop toks xs ops need)
                   (parse_loop toks xs' ops' need).
Proof.
  induction toks as [|t toks IH]; intros xs ops need xs' ops' H.
  - rewrite !parse_loop_nil. by apply sim_finish.
  - rewrite !parse_loop_cons.
    destruct (sim_step t _ _ _ _ _ H) as [[[y o] n] [[y' o'] n'] Hs|];
      [|constructor].
    pose proof (sim_need _ _ Hs) as Hn. cbn in Hn. subst n'.
    by apply IH.
Qed.

(** Parsing [1 && body] succeeds exactly when parsing [body] does, and the
    two expressions evaluate alike. *)
Lemma parse_one_and body :
  option_Forall2 eqv (parse_expr body)
                 (parse_expr (TNum "1" :: TPunct "&&" :: body)).
Proof.
  change (parse_expr (TNum "1" :: TPunct "&&" :: body))
    with (parse_loop body ([] ++ [ENum "1"]) ([] ++ [OpAnd]) true).
  apply sim_parse. apply sim_bottom. reflexivity.
Qed.

Lemma unguarded_defined w (env : macro_table) body :
  env !! FOLLY_HAS_COROUTINES = Some body ->
  eval_if w env unguarded_cond
  = match parse_expr (expand env (size env) [FOLLY_HAS_COROUTINES] body) with
    | Some e => eval w false e
    | None => Evaluation 0 [Diag_bad_expr] []
    end.
Proof.
  intros H.
  assert (Hr : resolve_defined env unguarded_cond = Some unguarded_cond)
    by reflexivity.
  unfold eval_if. rewrite Hr. unfold unguarded_cond, expand_all.
  cbn [expand flat_map existsb]. by rewrite H, app_nil_r.
Qed.

Lemma expand_all_unguarded (env : macro_table) body :
  env !! FOLLY_HAS_COROUTINES = Some body ->
  expand_all env unguarded_cond
  = expand env (size env) [FOLLY_HAS_COROUTINES] body.
Proof.
  intros H. unfold unguarded_cond, expand_all.
  cbn [expand flat_map existsb]. by rewrite H, app_nil_r.
Qed.

(** Parsing tokens of the fragment leaves no identifier to evaluate. *)
Lemma closed_tested e :
  closed_expr e = true -> forall w s, ev_tested (eval w s e) = [].
Proof.
  induction e as [x|x|a IH|a IHa b IHb|a IHa b IHb]; cbn; intros H w s.
  - by destruct (int_value x).
  - unfold eval_id. apply orb_prop in H as [-> | H]; [done|].
    rewrite H. by destruct (String.eqb x "true").
  - by apply IH.
  - apply andb_prop in H as [Ha Hb]. by rewrite IHa, IHb.
  - apply andb_prop in H as [Ha Hb]. by rewrite IHa, IHb.
Qed.

Lemma reduce_closed p ops :
  forall xs ops_r xs_r,
    forallb closed_expr xs = true ->
    reduce_while p ops xs = Some (ops_r, xs_r) ->
    forallb closed_expr xs_r = true.
Proof.
  induction ops as [|o ops IH]; intros xs ops_r xs_r Hxs H; cbn in H.
  - by injection H as <- <-.
  - destruct (p o); [|by injection H as <- <-].
    destruct (apply_op o xs) as [ys|] eqn:E; [|discriminate].
    apply (IH ys ops_r xs_r); [|done].
    destruct o, xs as [|r [|l xs]]; cbn in E; try discriminate;
      injection E as <-; cbn in *;
      repeat (match goal with
              | H : _ && _ = true |- _ => apply andb_prop in H as [? ?]
              end);
      repeat (apply andb_true_intro; split); done.
Qed.

Lemma step_closed t xs ops need xs' ops' need' :
  fragment_token t = true ->
  forallb closed_expr xs = true ->
  parser_step t xs ops need = Some (xs', ops', need') ->
  forallb closed_expr xs' = true.
Proof.
  intros Ht Hxs H. unfold parser_step in H.
  destruct need, t as [x|n|p]; cbn in Ht;
    repeat match type of H with
           | context [if ?c then _ else _] => destruct c
           | context [match reduce_while ?q ?o ?y with _ => _ end] =>
               let E := fresh "E" in
               destruct (reduce_while q o y) as [[? ?]|] eqn:E;
               [apply reduce_closed in E; [|by cbn; rewrite ?Ht, ?Hxs]|]
           | context [match ?l with [] => _ | _ :: _ => _ end] => destruct l
           | context [match ?o with OpNot => _ | _ => _ end] => destruct o
           end;
    try discriminate; by injection H as <- <- <-.
Qed.

Lemma parse_closed toks :
  forall xs ops need e,
    forallb fragment_token toks = true ->
    forallb closed_expr xs = true ->
    parse_loop toks xs ops need = Some e ->
    closed_expr e = true.
Proof.
  induction toks as [|t toks IH]; intros xs ops need e Ht Hxs H.
  - rewrite parse_loop_nil in H. unfold parser_finish in H.
    destruct need; [discriminate|].
    destruct (reduce_while not_paren ops xs) as [[o y]|] eqn:E; [|discriminate].
    apply reduce_closed in E; [|done].
    destruct o, y as [|e' [|]]; try discriminate.
    injection H as <-. cbn in E. by rewrite andb_true_r in E.
  - rewrite parse_loop_cons in H. cbn in Ht. apply andb_prop in Ht as [Ht Hts].
    destruct (parser_step t xs ops need) as [[[y o] n]|] eqn:E; [|discriminate].
    apply (IH y o n e); [done | by eapply step_closed | done].
Qed.

(** X1: whenever the feature macro is defined and its full expansion
    consists of integer literals, [true], [false], [!], [&&], [||] and
    parentheses, well-formed or not, the guard [defined(M) && M] decides
    exactly as the bare test [M] would: same truth value, same diagnostics,
    and no identifier left to evaluate.  The [||] in such an expansion
    regroups with the guard's [&&] ([1 && a || b] is [(1 && a) || b]), and
    this changes nothing. *)
Theorem guard_equals_value_test_when_defined st body :
  pp_macros st !! FOLLY_HAS_COROUTINES = Some body ->
  forallb fragment_token (expand_all (pp_macros st) unguarded_cond) = true ->
  emitted st
  = (if truth (ev_value (eval_if (pp_wundef st) (pp_macros st) unguarded_cond))
     then [OInclude coroutine_header] else [])
  /\ diagnosed st
     = ev_diags (eval_if (pp_wundef st) (pp_macros st) unguarded_cond)
  /\ tested st = [].
Proof.
  intros H Hfrag. rewrite (expand_all_unguarded _ _ H) in Hfrag.
  rewrite emitted_eq, diagnosed_eq, tested_eq.
  rewrite (eval_if_defined _ _ _ H), (unguarded_defined _ _ _ H).
  pose proof (parse_one_and
                (expand (pp_macros st) (size (pp_macros st))
                        [FOLLY_HAS_COROUTINES] body)) as Hsim.
  destruct (parse_expr (expand (pp_macros st) (size (pp_macros st))
                               [FOLLY_HAS_COROUTINES] body))
    as [e|] eqn:Hp.
  - inversion Hsim as [e0 e' He H0 H1|]; subst.
    destruct (He (pp_wundef st) false) as (Hv & Hd & Ht).
    rewrite <- Hv, <- Hd, <- Ht. repeat split.
    apply closed_tested.
    by apply (parse_closed _ [] [] true e Hfrag eq_refl).
  - by inversion Hsim.
Qed.

Lemma tokens_eqb_one old : tokens_eqb old [TNum "1"] = true -> old = [TNum "1"].
Proof.
  destruct old as [|[x|s|p] [|u old]]; try discriminate. cbn.
  rewrite andb_true_r. intros H. apply String.eqb_eq in H. by subst.
Qed.

(** X9: a translation unit that undefines the feature macro on the line
    before the header gets no include and no diagnostic from the patch,
    whatever the macro was before. *)
Theorem undef_before_patch_turns_guard_off st :
  pp_skipping st = false ->
  emitted (step st (parse_line undef_line)) = []
  /\ diagnosed (step st (parse_line undef_line)) = [].
Proof.
  intros Hs.
  assert (H : pp_macros (step st (parse_line undef_line))
              !! FOLLY_HAS_COROUTINES = None).
  { change (parse_line undef_line) with (Undef [TId FOLLY_HAS_COROUTINES]).
    unfold step. rewrite Hs. cbn. apply lookup_delete_eq. }
  rewrite emitted_eq, diagnosed_eq.
  by rewrite (guard_undefined _ _ H).
Qed.

(** X10: a translation unit that defines the feature macro to 1 on the line
    before the header gets the include, whatever the macro was before. *)
Theorem define_before_patch_turns_guard_on st :
  pp_skipping st = false ->
  emitted (step st (parse_line define_line)) = [OInclude coroutine_header].
Proof.
  intros Hs.
  assert (H : pp_macros (step st (parse_line define_line))
              !! FOLLY_HAS_COROUTINES = Some [TNum "1"]).
  { change (parse_line define_line)
      with (Define FOLLY_HAS_COROUTINES [TNum "1"]).
    unfold step. rewrite Hs. unfold do_define.
    destruct (pp_macros st !! FOLLY_HAS_COROUTINES) as [old|] eqn:E.
    - destruct (tokens_eqb old [TNum "1"]) eqn:Eq.
      + apply tokens_eqb_one in Eq. by subst.
      + cbn. apply lookup_insert_eq.
    - cbn. apply lookup_insert_eq. }
  rewrite emitted_eq.
  by rewrite (guard_defined_int _ _ "1" 1 H).
Qed.

(** ** Witnesses *)

Lemma guard_equals_value_test_when_defined_witness :
  pp_macros st_or !! FOLLY_HAS_COROUTINES = Some or_body
  /\ forallb fragment_token (expand_all (pp_macros st_or) unguarded_cond) = true
  /\ emitted st_or
     = (if truth (ev_value (eval_if (pp_wundef st_or) (pp_macros st_or)
                                    unguarded_cond))
        then [OInclude coroutine_header] else [])
  /\ diagnosed st_or
     = ev_diags (eval_if (pp_wundef st_or) (pp_macros st_or) unguarded_cond)
  /\ tested st_or = [].
Proof.
  split; [vm_compute; reflexivity|].
  split; [vm_compute; reflexivity|].
  apply (guard_equals_value_test_when_defined st_or or_body).
  - vm_compute. reflexivity.
  - vm_compute. reflexivity.
Defined.

Lemma empty_definition_is_diagnosed_witness :
  pp_macros st_empty !! FOLLY_HAS_COROUTINES = Some []
  /\ pp_output (run_patch st_empty) = pp_output st_empty
  /\ pp_diags (run_patch st_empty) = pp_diags st_empty ++ [Diag_bad_expr].
Proof.
  split; [vm_compute; reflexivity|].
  apply (empty_definition_is_diagnosed st_empty). vm_compute. reflexivity.
Defined.

Lemma indirect_definition_is_followed_witness :
  "FOLLY_CFG_CORO" <> FOLLY_HAS_COROUTINES
  /\ pp_macros st_indirect !! FOLLY_HAS_COROUTINES = Some [TId "FOLLY_CFG_CORO"]
  /\ pp_macros st_indirect !! "FOLLY_CFG_CORO" = Some [TNum "1"]
  /\ int_value "1" = Some 1%N
  /\ emitted st_indirect
     = (if (1 =? 0)%N then [] else [OInclude coroutine_header]).
Proof.
  split; [discriminate|].
  split; [vm_compute; reflexivity|].
  split; [vm_compute; reflexivity|].
  split; [vm_compute; reflexivity|].
  apply (indirect_definition_is_followed st_indirect "FOLLY_CFG_CORO" "1" 1).
  - discriminate.
  - vm_compute. reflexivity.
  - vm_compute. reflexivity.
  - vm_compute. reflexivity.
Defined.

Lemma unknown_identifier_definition_witness :
  ordinary_identifier "YES" = true
  /\ ("YES" = FOLLY_HAS_COROUTINES \/ pp_macros st_unknown !! "YES" = None)
  /\ pp_macros st_unknown !! FOLLY_HAS_COROUTINES = Some [TId "YES"]
  /\ emitted st_unknown = []
  /\ diagnosed st_unknown
     = (if pp_wundef st_unknown then [Diag_undef "YES"] else [])
  /\ tested st_unknown = ["YES"].
Proof.
  split; [vm_compute; reflexivity|].
  split; [right; vm_compute; reflexivity|].
  split; [vm_compute; reflexivity|].
  apply (unknown_identifier_definition st_unknown "YES").
  - vm_compute. reflexivity.
  - right. vm_compute. reflexivity.
  - vm_compute. reflexivity.
Defined.

Lemma boolean_keyword_definition_witness :
  pp_macros st_true !! (if true then "true" else "false") = None
  /\ pp_macros st_true !! FOLLY_HAS_COROUTINES
     = Some [TId (if true then "true" else "false")]
  /\ emitted st_true = (if true then [OInclude coroutine_header] else [])
  /\ diagnosed st_true = []
  /\ tested st_true = [].
Proof.
  split; [vm_compute; reflexivity|].
  split; [vm_compute; reflexivity|].
  apply (boolean_keyword_definition st_true true).
  - vm_compute. reflexivity.
  - vm_compute. reflexivity.
Defined.

Lemma repeated_inclusion_repeats_include_witness :
  pp_macros st_one !! FOLLY_HAS_COROUTINES = Some [TNum "1"]
  /\ int_value "1" = Some 1%N
  /\ 1%N <> 0%N
  /\ pp_output (run_patch (run_patch st_one))
     = pp_output st_one ++ [OInclude coroutine_header; OInclude coroutine_header].
Proof.
  split; [vm_compute; reflexivity|].
  split; [vm_compute; reflexivity|].
  split; [discriminate|].
  apply (repeated_inclusion_repeats_include st_one "1" 1).
  - vm_compute. reflexivity.
  - vm_compute. reflexivity.
  - discriminate.
Defined.

Lemma undef_before_patch_turns_guard_off_witness :
  pp_skipping st_one = false
  /\ emitted (step st_one (parse_line undef_line)) = []
  /\ diagnosed (step st_one (parse_line undef_line)) = [].
Proof.
  split; [reflexivity|].
  apply (undef_before_patch_turns_guard_off st_one). reflexivity.
Defined.

Lemma define_before_patch_turns_guard_on_witness :
  pp_skipping st_zero = false
  /\ emitted (step st_zero (parse_line define_line))
     = [OInclude coroutine_header].
Proof.
  split; [reflexivity|].
  apply (define_before_patch_turns_guard_on st_zero). reflexivity.
Defined.
